(** * MD5 compression core of noble-hashes ([src/md5.ts])

    A shallow embedding of the [MD5] class and of the module-level tables it
    closes over, together with the properties its specification states.

    JavaScript numbers are modelled as [Z]: every value the code computes is
    an integer far below 2^53 in magnitude (lemma [rounds_safe_integer]), so
    double arithmetic is exact on them.  The 32-bit coercions of the bitwise
    operators are written out ([to_int32], [to_uint32]). *)

From Stdlib Require Import ZArith List Lia Bool Ascii String.
From Stdlib Require Import Strings.Byte.
From Stdlib Require Import Reals Lra.
From stdpp Require Import base option list gmap.

Local Open Scope Z_scope.

(** ** JavaScript number primitives *)

Module JS.

(** [ToUint32]: the value modulo 2^32, in [0, 2^32). *)
Definition to_uint32 (x : Z) : Z := x mod 2 ^ 32.

(** [ToInt32]: the value modulo 2^32, in [-2^31, 2^31). *)
Definition to_int32 (x : Z) : Z := (x + 2 ^ 31) mod 2 ^ 32 - 2 ^ 31.

(** [x & y], [x | y], [x ^ y], [~x]: operands go through [ToInt32]; the
    result is a signed 32-bit integer. *)
Definition and (x y : Z) : Z := Z.land (to_int32 x) (to_int32 y).
Definition or (x y : Z) : Z := Z.lor (to_int32 x) (to_int32 y).
Definition xor (x y : Z) : Z := Z.lxor (to_int32 x) (to_int32 y).
Definition not (x : Z) : Z := Z.lnot (to_int32 x).

(** [x << n]: [ToInt32 x] shifted by [ToUint32 n & 31], wrapped to int32. *)
Definition shl (x n : Z) : Z :=
  to_int32 (Z.shiftl (to_int32 x) (Z.land (to_uint32 n) 31)).

(** [x >>> n]: [ToUint32 x] shifted right by [ToUint32 n & 31]. *)
Definition shru (x n : Z) : Z :=
  Z.shiftr (to_uint32 x) (Z.land (to_uint32 n) 31).

(** [a % b] truncates towards zero. *)
Definition rem (a b : Z) : Z := Z.rem a b.

(** [arr[i]] on an array of numbers.  An index outside the array reads
    [undefined] in JavaScript; no read of the code below is out of range
    (lemmas [K_index_in_range], [g_in_range], [s_index_in_range]), and the
    model returns 0 there. *)
Definition idx (arr : list Z) (i : Z) : Z := nth (Z.to_nat i) arr 0.

(** Exceptions the modelled code can raise. *)
Inductive Error : Type := RangeError | TypeError.

End JS.

(** ** Helpers imported from [./_md.js] and [./utils.js] *)

(** Modelled from the spec: [Chi] of [_md.js] is not among the sources; the
    spec gives the phase-1 function as (B AND C) OR (NOT B AND D) and the
    phase-2 function as the same with the arguments (D, B, C). *)
Definition Chi (a b c : Z) : Z := JS.or (JS.and a b) (JS.and (JS.not a) c).

(** Modelled from the spec: [rotl] of [utils.js] is not among the sources; the
    spec's rotl32(x, n) is the left rotation of a 32-bit word by n bits,
    written here with the shifts of the language. *)
Definition rotl (word shift : Z) : Z :=
  JS.or (JS.shl word shift) (JS.shru (JS.shru word (32 - shift)) 0).

(** ** Module-level constants *)

(** Per-round constants, lines 19-28. *)
Definition MD5_K : list Z :=
  [ 0xd76aa478; 0xe8c7b756; 0x242070db; 0xc1bdceee; 0xf57c0faf; 0x4787c62a; 0xa8304613; 0xfd469501;
    0x698098d8; 0x8b44f7af; 0xffff5bb1; 0x895cd7be; 0x6b901122; 0xfd987193; 0xa679438e; 0x49b40821;
    0xf61e2562; 0xc040b340; 0x265e5a51; 0xe9b6c7aa; 0xd62f105d; 0x2441453;  0xd8a1e681; 0xe7d3fbc8;
    0x21e1cde6; 0xc33707d6; 0xf4d50d87; 0x455a14ed; 0xa9e3e905; 0xfcefa3f8; 0x676f02d9; 0x8d2a4c8a;
    0xfffa3942; 0x8771f681; 0x6d9d6122; 0xfde5380c; 0xa4beea44; 0x4bdecfa9; 0xf6bb4b60; 0xbebfbc70;
    0x289b7ec6; 0xeaa127fa; 0xd4ef3085; 0x4881d05; 0xd9d4d039; 0xe6db99e5; 0x1fa27cf8; 0xc4ac5665;
    0xf4292244; 0x432aff97; 0xab9423a7; 0xfc93a039; 0x655b59c3; 0x8f0ccc92; 0xffeff47d; 0x85845dd1;
    0x6fa87e4f; 0xfe2ce6e0; 0xa3014314; 0x4e0811a1; 0xf7537e82; 0xbd3af235; 0x2ad7d2bb; 0xeb86d391 ].

(** Initial state, line 31. *)
Definition IV : list Z := [0x67452301; 0xefcdab89; 0x98badcfe; 0x10325476].

(** ** The store *)

(** Byte arrays ([ArrayBuffer]s) live in a store and are named by address; a
    [DataView] or a [Uint8Array] is modelled by the address of the buffer it
    spans.  A detached buffer is an address the store does not hold. *)
Definition addr := nat.

(** References to [MD5] objects. *)
Definition ref := nat.

(** An [MD5] object: the four private words of lines 37-40, and the fields of
    the base class [HashMD] that the source shows, namely the four arguments
    of [super(64, 16, 8, true)] and the byte buffer [destroy] fills. *)
Record MD5 : Type := mkMD5 {
  A : Z;
  B : Z;
  C : Z;
  D : Z;
  blockLen : Z;
  outputLen : Z;
  padOffset : Z;
  isLE : bool;
  buffer : addr
}.

(** The state a method runs in: the module-level scratch array [MD5_W]
    (line 35: one [Uint32Array(16)] for the whole module), the byte store,
    and the heap of [MD5] objects. *)
Record World : Type := mkWorld {
  MD5_W : list Z;
  mem : gmap addr (list byte);
  heap : gmap ref MD5
}.

(** How a method call completes: normally with a value, or by throwing; the
    world it leaves behind is kept in both cases. *)
Inductive Completion (T : Type) : Type :=
| Normal (w : World) (v : T)
| Throw (w : World) (e : JS.Error).
Arguments Normal {T} w v.
Arguments Throw {T} w e.

Definition world_of {T} (c : Completion T) : World :=
  match c with Normal w _ => w | Throw w _ => w end.

Definition with_W (w : World) (W : list Z) : World :=
  {| MD5_W := W; mem := mem w; heap := heap w |}.

Definition with_mem (w : World) (m : gmap addr (list byte)) : World :=
  {| MD5_W := MD5_W w; mem := m; heap := heap w |}.

Definition with_heap (w : World) (h : gmap ref MD5) : World :=
  {| MD5_W := MD5_W w; mem := mem w; heap := h |}.

(** ** [DataView.prototype.getUint32(offset, true)] *)

Definition byte_val (b : byte) : Z := Z.of_N (Byte.to_N b).

(** The little-endian value of a run of bytes. *)
Fixpoint le_value (bs : list byte) : Z :=
  match bs with
  | [] => 0
  | b :: bs' => byte_val b + 256 * le_value bs'
  end.

(** A negative index is a [RangeError]; then a detached buffer is a
    [TypeError]; then an index whose four bytes do not lie inside the view is
    a [RangeError]; otherwise the four bytes are read little-endian. *)
Definition getUint32 (m : gmap addr (list byte)) (view : addr) (offset : Z)
  : JS.Error + Z :=
  if offset <? 0 then inl JS.RangeError
  else match m !! view with
       | None => inl JS.TypeError
       | Some bs =>
           if Z.of_nat (length bs) <? offset + 4 then inl JS.RangeError
           else inr (le_value (take 4 (drop (Z.to_nat offset) bs)))
       end.

(** ** The class [MD5] *)

(** The constructor: field initialisers of lines 37-40 and
    [super(64, 16, 8, true)].  The base class allocates the block buffer; the
    object and its buffer take the addresses the caller has chosen as fresh. *)
Definition fresh (buf : addr) : MD5 :=
  {| A := JS.or (JS.idx IV 0) 0;
     B := JS.or (JS.idx IV 1) 0;
     C := JS.or (JS.idx IV 2) 0;
     D := JS.or (JS.idx IV 3) 0;
     blockLen := 64; outputLen := 16; padOffset := 8; isLE := true;
     buffer := buf |}.

Definition new_MD5 (w : World) (this : ref) (buf : addr) : World :=
  {| MD5_W := MD5_W w;
     mem := <[buf := replicate 64 x00]> (mem w);
     heap := <[this := fresh buf]> (heap w) |}.

(** [get()], lines 45-48. *)
Definition get (w : World) (this : ref) : Completion (Z * Z * Z * Z) :=
  match heap w !! this with
  | None => Throw w JS.TypeError
  | Some o => Normal w (A o, B o, C o, D o)
  end.

(** The assignments of [set], on the object. *)
Definition set_fields (o : MD5) (a b c d : Z) : MD5 :=
  {| A := JS.or a 0; B := JS.or b 0; C := JS.or c 0; D := JS.or d 0;
     blockLen := blockLen o; outputLen := outputLen o;
     padOffset := padOffset o; isLE := isLE o; buffer := buffer o |}.

(** [set(A, B, C, D)], lines 49-54. *)
Definition set (w : World) (this : ref) (a b c d : Z) : Completion unit :=
  match heap w !! this with
  | None => Throw w JS.TypeError
  | Some o => Normal (with_heap w (<[this := set_fields o a b c d]> (heap w))) tt
  end.

(** The loop of line 56: sixteen little-endian reads into [MD5_W], stopping at
    the first read that throws.  [n] counts the iterations left. *)
Fixpoint load_W (n : nat) (i : nat) (offset : Z)
    (m : gmap addr (list byte)) (view : addr) (W : list Z)
  : list Z * option JS.Error :=
  match n with
  | O => (W, None)
  | S n' =>
      match getUint32 m view offset with
      | inl e => (W, Some e)
      | inr v => load_W n' (S i) (offset + 4) m view (<[i := JS.to_uint32 v]> W)
      end
  end.

(** One iteration of the loop of lines 59-83. *)
Definition round (W : list Z) (i : Z) (st : Z * Z * Z * Z) : Z * Z * Z * Z :=
  let '(A, B, C, D) := st in
  let '(F, g, s) :=
    if i <? 16 then (Chi B C D, i, [7; 12; 17; 22])
    else if i <? 32 then (Chi D B C, JS.rem (5 * i + 1) 16, [5; 9; 14; 20])
    else if i <? 48 then
      (JS.xor (JS.xor B C) D, JS.rem (3 * i + 5) 16, [4; 11; 16; 23])
    else (JS.xor C (JS.or B (JS.not D)), JS.rem (7 * i) 16, [6; 10; 15; 21]) in
  let F := F + A + JS.idx MD5_K i + JS.idx W g in
  (D, B + rotl F (JS.idx s (JS.rem i 4)), B, C).

(** [n] iterations of that loop, starting at index [i]. *)
Fixpoint rounds (n : nat) (W : list Z) (i : Z) (st : Z * Z * Z * Z)
  : Z * Z * Z * Z :=
  match n with
  | O => st
  | S n' => rounds n' W (i + 1) (round W i st)
  end.

(** [process(view, offset)], lines 55-90. *)
Definition process (w : World) (this : ref) (view : addr) (offset : Z)
  : Completion unit :=
  match heap w !! this with
  | None => Throw w JS.TypeError
  | Some o =>
      match load_W 16 0 offset (mem w) view (MD5_W w) with
      | (W, Some e) => Throw (with_W w W) e
      | (W, None) =>
          let '(A', B', C', D') := rounds 64 W 0 (A o, B o, C o, D o) in
          let A' := JS.or (A' + A o) 0 in
          let B' := JS.or (B' + B o) 0 in
          let C' := JS.or (C' + C o) 0 in
          let D' := JS.or (D' + D o) 0 in
          set (with_W w W) this A' B' C' D'
      end
  end.

(** [roundClean()], lines 91-93: [MD5_W.fill(0)]. *)
Definition roundClean (w : World) (this : ref) : Completion unit :=
  match heap w !! this with
  | None => Throw w JS.TypeError
  | Some _ => Normal (with_W w (replicate (length (MD5_W w)) 0)) tt
  end.

(** [destroy()], lines 94-97: [this.set(0, 0, 0, 0); this.buffer.fill(0)]. *)
Definition destroy (w : World) (this : ref) : Completion unit :=
  match set w this 0 0 0 0 with
  | Throw w' e => Throw w' e
  | Normal w' _ =>
      match heap w' !! this with
      | None => Throw w' JS.TypeError
      | Some o =>
          match mem w' !! buffer o with
          | None => Throw w' JS.TypeError
          | Some bs =>
              Normal (with_mem w'
                        (<[buffer o := replicate (length bs) x00]> (mem w'))) tt
          end
      end
  end.

(** ** The streaming engine *)

(** Sequencing of method calls: a throw ends the sequence. *)
Definition bindC {T U} (c : Completion T) (f : World -> T -> Completion U)
  : Completion U :=
  match c with
  | Normal w v => f w v
  | Throw w e => Throw w e
  end.

Definition byte_of_Z (z : Z) : byte :=
  match Byte.of_N (Z.to_N (z mod 256)) with
  | Some b => b
  | None => x00
  end.

(** [n] bytes of [v], least significant first. *)
Fixpoint le_bytes (n : nat) (v : Z) : list byte :=
  match n with
  | O => []
  | S n' => byte_of_Z v :: le_bytes n' (v / 256)
  end.

(** Modelled from the spec: the padding of the external engine ([HashMD] of
    [_md.js], not among the sources): a 0x80 byte, zero fill up to 8 bytes
    short of a block boundary, and the bit length of the message as a 64-bit
    little-endian suffix. *)
Definition pad (msg : list byte) : list byte :=
  let len := Z.of_nat (length msg) in
  msg ++ [x80] ++ replicate (Z.to_nat ((55 - len) mod 64)) x00
      ++ le_bytes 8 (8 * len).

(** Modelled from the spec: the engine delivers the successive 64-byte blocks
    in order, calling [process] for each and [roundClean] after each. *)
Fixpoint feed (n : nat) (this : ref) (view : addr) (offset : Z) (w : World)
  : Completion unit :=
  match n with
  | O => Normal w tt
  | S n' =>
      bindC (process w this view offset) (fun w1 _ =>
      bindC (roundClean w1 this) (fun w2 _ =>
      feed n' this view (offset + 64) w2))
  end.

(** Modelled from the spec: the engine serialises the four state words as 16
    bytes, each word little-endian, [A] first, then [B], [C], [D]. *)
Definition serialize (st : Z * Z * Z * Z) : list byte :=
  let '(a, b, c, d) := st in
  le_bytes 4 (JS.to_uint32 a) ++ le_bytes 4 (JS.to_uint32 b)
    ++ le_bytes 4 (JS.to_uint32 c) ++ le_bytes 4 (JS.to_uint32 d).

(** The module as loaded: a zeroed scratch array, nothing allocated. *)
Definition init_world : World :=
  {| MD5_W := replicate 16 0; mem := ∅; heap := ∅ |}.

(** Modelled from the spec: [md5] (line 100, [wrapConstructor] of [utils.js]
    is not among the sources) builds a new [MD5], feeds it the padded message
    block by block, extracts the digest with [get] and destroys the object. *)
Definition md5 (msg : list byte) : Completion (list byte) :=
  let w := new_MD5 init_world 0%nat 0%nat in
  let data := pad msg in
  let w := with_mem w (<[1%nat := data]> (mem w)) in
  bindC (feed (length data / 64)%nat 0%nat 1%nat 0 w) (fun w _ =>
  bindC (get w 0%nat) (fun w st =>
  bindC (destroy w 0%nat) (fun w _ =>
  Normal w (serialize st)))).

Definition hex_digit (n : N) : ascii :=
  match n with
  | 0 => "0" | 1 => "1" | 2 => "2" | 3 => "3" | 4 => "4" | 5 => "5"
  | 6 => "6" | 7 => "7" | 8 => "8" | 9 => "9" | 10 => "a" | 11 => "b"
  | 12 => "c" | 13 => "d" | 14 => "e" | _ => "f"
  end%N%char.

(** Lower-case hexadecimal rendering of a byte string. *)
Fixpoint hex (bs : list byte) : string :=
  match bs with
  | [] => EmptyString
  | b :: bs' =>
      String (hex_digit (Byte.to_N b / 16))
        (String (hex_digit (Byte.to_N b mod 16)) (hex bs'))
  end.

(** The digest of a text, in hexadecimal; [None] if the computation throws. *)
Definition md5_hex (text : string) : option string :=
  match md5 (list_byte_of_string text) with
  | Normal _ d => Some (hex d)
  | Throw _ _ => None
  end.

(** ** The compression function as the specification words it *)

Module Spec.

(** A HashState: four unsigned 32-bit words. *)
Definition HashState : Type := Z * Z * Z * Z.

(** NOT on a 32-bit word. *)
Definition not32 (x : Z) : Z := Z.lnot x mod 2 ^ 32.

(** rotl32(x, n): left rotation of a 32-bit word by n bits. *)
Definition rotl32 (x n : Z) : Z :=
  (x * 2 ^ n) mod 2 ^ 32 + x / 2 ^ (32 - n).

(** W[i] = little-endian uint32 at block[4i .. 4i+3], for i in 0..15. *)
Definition schedule (block : list byte) : list Z :=
  (fun i => le_value (take 4 (drop (4 * i) block))) <$> seq 0 16.

(** The phase table: F, g and the shift group for round [i]. *)
Definition F (i : Z) (b c d : Z) : Z :=
  if i <? 16 then Z.lor (Z.land b c) (Z.land (not32 b) d)
  else if i <? 32 then Z.lor (Z.land d b) (Z.land (not32 d) c)
  else if i <? 48 then Z.lxor (Z.lxor b c) d
  else Z.lxor c (Z.lor b (not32 d)).

Definition g (i : Z) : Z :=
  if i <? 16 then i
  else if i <? 32 then (5 * i + 1) mod 16
  else if i <? 48 then (3 * i + 5) mod 16
  else (7 * i) mod 16.

Definition shiftGroup (i : Z) : list Z :=
  if i <? 16 then [7; 12; 17; 22]
  else if i <? 32 then [5; 9; 14; 20]
  else if i <? 48 then [4; 11; 16; 23]
  else [6; 10; 15; 21].

Definition shift (i : Z) : Z := nth (Z.to_nat (i mod 4)) (shiftGroup i) 0.

(** One round: T = (F + A + K[i] + W[g(i)]) mod 2^32, then
    A<-D, D<-C, C<-B, B<-(B + rotl32(T, shift)) mod 2^32. *)
Definition step (W : list Z) (st : HashState) (i : Z) : HashState :=
  let '(a, b, c, d) := st in
  let T := (F i b c d + a + nth (Z.to_nat i) MD5_K 0
            + nth (Z.to_nat (g i)) W 0) mod 2 ^ 32 in
  (d, (b + rotl32 T (shift i)) mod 2 ^ 32, b, c).

(** The compression function: 64 rounds, then the feed-forward sum. *)
Definition compress (st : HashState) (block : list byte) : HashState :=
  let '(a0, b0, c0, d0) := st in
  let '(a, b, c, d) := fold_left (step (schedule block)) (seqZ 0 64) st in
  ((a0 + a) mod 2 ^ 32, (b0 + b) mod 2 ^ 32,
   (c0 + c) mod 2 ^ 32, (d0 + d) mod 2 ^ 32).

End Spec.

(** The state words of an object, as stored and read as unsigned words. *)
Definition words (o : MD5) : Z * Z * Z * Z := (A o, B o, C o, D o).

Definition map4 (f : Z -> Z) (st : Z * Z * Z * Z) : Z * Z * Z * Z :=
  let '(a, b, c, d) := st in (f a, f b, f c, f d).

(** The world invariant: the scratch array has its sixteen slots. *)
Definition wf_world (w : World) : Prop := length (MD5_W w) = 16%nat.

(** The words the loop of line 56 reads: [n] little-endian words of [bs]
    from byte [off] on. *)
Fixpoint words_at (bs : list byte) (off : Z) (n : nat) : list Z :=
  match n with
  | O => []
  | S n' => le_value (take 4 (drop (Z.to_nat off) bs)) :: words_at bs (off + 4) n'
  end.

(** ** Calls and runs *)

(** The scratch array a method running on [this] reads and writes: the
    methods name the module-level [MD5_W], whatever [this] is. *)
Definition scratch_of (w : World) (this : ref) : list Z := MD5_W w.

(** A call of one of the methods of the class. *)
Inductive Call : Type :=
| CallGet (this : ref)
| CallSet (this : ref) (a b c d : Z)
| CallProcess (this : ref) (view : addr) (offset : Z)
| CallRoundClean (this : ref)
| CallDestroy (this : ref).

Definition is_process (c : Call) : bool :=
  match c with CallProcess _ _ _ => true | _ => false end.

(** The world a call leaves behind, whether it returns or throws. *)
Definition run_call (w : World) (c : Call) : World :=
  match c with
  | CallGet this => world_of (get w this)
  | CallSet this a b c d => world_of (set w this a b c d)
  | CallProcess this view offset => world_of (process w this view offset)
  | CallRoundClean this => world_of (roundClean w this)
  | CallDestroy this => world_of (destroy w this)
  end.

Definition run (w : World) (cs : list Call) : World := fold_left run_call cs w.

(** What a call leaves behind apart from the scratch array: how it
    completed, the objects and the byte store. *)
Definition outcome {T} (c : Completion T)
  : (T + JS.Error) * gmap ref MD5 * gmap addr (list byte) :=
  match c with
  | Normal w v => (inl v, heap w, mem w)
  | Throw w e => (inr e, heap w, mem w)
  end.

(** ** Example worlds *)

(** One fresh object (reference 0, block buffer at address 0) and the bytes
    [data] at address 1. *)
Definition one_object (data : list byte) : World :=
  let w := new_MD5 init_world 0%nat 0%nat in
  with_mem w (<[1%nat := data]> (mem w)).

(** Two fresh objects (references 0 and 1, block buffers at addresses 0 and
    2) and the bytes [data] at address 1. *)
Definition two_objects (data : list byte) : World :=
  new_MD5 (one_object data) 1%nat 2%nat.

(** The 64-byte block that pads the message "abc". *)
Definition abc_block : list byte := pad (list_byte_of_string "abc").

(** ** The sine table, by interval arithmetic *)

Module Sine.

(** Fixed-point scale of the enclosures: an integer [a] stands for
    [a / 2^128]. *)
Definition scale : Z := 2 ^ 128.

(** The partial sum [1 - 1/3! + 1/5! - ... ] of the sine series at 1, up to
    the term of index [n], as numerator and denominator [(2n+1)!]. *)
Fixpoint sin1_sum (n : nat) : Z * Z :=
  match n with
  | O => (1, 1)
  | S n' =>
      let '(num, den) := sin1_sum n' in
      let k := Z.of_nat n' in
      let f := (2 * k + 2) * (2 * k + 3) in
      (num * f + (-1) ^ (k + 1), den * f)
  end.

(** The partial sum [1 - 1/2! + 1/4! - ... ] of the cosine series at 1, with
    denominator [(2n)!]. *)
Fixpoint cos1_sum (n : nat) : Z * Z :=
  match n with
  | O => (1, 1)
  | S n' =>
      let '(num, den) := cos1_sum n' in
      let k := Z.of_nat n' in
      let f := (2 * k + 1) * (2 * k + 2) in
      (num * f + (-1) ^ (k + 1), den * f)
  end.

(** A fraction rounded down, and up, to the scale. *)
Definition round_down (q : Z * Z) : Z := (fst q * scale) / snd q.
Definition round_up (q : Z * Z) : Z := (fst q * scale) / snd q + 1.

(** Enclosures of sin 1 and cos 1: an odd partial sum is below, the next
    even one above. *)
Definition sin1 : Z * Z := (round_down (sin1_sum 19), round_up (sin1_sum 20)).
Definition cos1 : Z * Z := (round_down (cos1_sum 19), round_up (cos1_sum 20)).

(** Lower and upper bound of a product whose second factor lies in the
    non-negative interval [y]. *)
Definition mul_lo (x : Z) (y : Z * Z) : Z :=
  (if 0 <=? x then x * fst y else x * snd y) / scale.
Definition mul_hi (x : Z) (y : Z * Z) : Z :=
  (if 0 <=? x then x * snd y else x * fst y) / scale + 1.

(** From enclosures of sin n and cos n to enclosures of sin (n+1) and
    cos (n+1), by the addition formulas; [s1] and [c1] enclose sin 1 and
    cos 1. *)
Definition next (s1 c1 : Z * Z) (sc : (Z * Z) * (Z * Z))
  : (Z * Z) * (Z * Z) :=
  let '((sl, sh), (cl, ch)) := sc in
  ((mul_lo sl c1 + mul_lo cl s1, mul_hi sh c1 + mul_hi ch s1),
   (mul_lo cl c1 - mul_hi sh s1, mul_hi ch c1 - mul_lo sl s1)).

(** Enclosures of sin (n+1) and cos (n+1). *)
Fixpoint sincos (s1 c1 : Z * Z) (n : nat) : (Z * Z) * (Z * Z) :=
  match n with
  | O => (s1, c1)
  | S n' => next s1 c1 (sincos s1 c1 n')
  end.

(** Does the enclosure [iv] of a number x settle that the integer part of
    2^32 |x| is [k]? *)
Definition entry_ok (k : Z) (iv : Z * Z) : bool :=
  let '(l, h) := iv in
  if 0 <=? l then (k * scale <=? 2 ^ 32 * l) && (2 ^ 32 * h <? (k + 1) * scale)
  else if h <=? 0 then
    (k * scale <=? 2 ^ 32 * - h) && (2 ^ 32 * - l <? (k + 1) * scale)
  else false.

(** The check of a run of entries, [sc] enclosing the sine and cosine that
    belong to the first. *)
Fixpoint check_from (s1 c1 : Z * Z) (sc : (Z * Z) * (Z * Z)) (K : list Z)
  : bool :=
  match K with
  | [] => true
  | k :: K' => entry_ok k (fst sc) && check_from s1 c1 (next s1 c1 sc) K'
  end.

(** The check of the whole table. *)
Definition table_ok (K : list Z) : bool :=
  let s1 := sin1 in
  let c1 := cos1 in
  check_from s1 c1 (s1, c1) K.

(** [iv] encloses the real number [x], at the scale. *)
Definition encloses (iv : Z * Z) (x : R) : Prop :=
  (IZR (fst iv) <= x * IZR scale <= IZR (snd iv))%R.

End Sine.

(** ** Runs of calls: vocabulary *)

(** A signed 32-bit integer. *)
Definition int32 (x : Z) : Prop := - 2 ^ 31 <= x < 2 ^ 31.

(** Every object of the heap holds four signed 32-bit integers. *)
Definition heap_int32 (w : World) : Prop :=
  forall r o, heap w !! r = Some o -> Forall int32 [A o; B o; C o; D o].

(** The object [process] stores in place of [o] after the block [block]:
    lines 58-89 with the schedule of the block. *)
Definition compress_object (o : MD5) (block : list byte) : MD5 :=
  let '(a, b, c, d) := rounds 64 (Spec.schedule block) 0 (words o) in
  set_fields o (JS.or (a + A o) 0) (JS.or (b + B o) 0)
    (JS.or (c + C o) 0) (JS.or (d + D o) 0).

(** [n] calls of [process] on the consecutive 64-byte blocks of a view, from
    block number [k] on; and those blocks. *)
Definition process_calls (this : ref) (view : addr) (k n : nat) : list Call :=
  (fun j => CallProcess this view (64 * Z.of_nat j)) <$> seq k n.

Definition blocks (bs : list byte) (k n : nat) : list (list byte) :=
  (fun j => take 64 (drop (64 * j) bs)) <$> seq k n.

Definition is_roundClean (c : Call) : bool :=
  match c with CallRoundClean _ => true | _ => false end.

(** Two worlds with the same objects and bytes, whatever their scratch
    arrays hold. *)
Definition same_but_scratch (w1 w2 : World) : Prop :=
  heap w1 = heap w2 /\ mem w1 = mem w2 /\ wf_world w1 /\ wf_world w2.

(** * Properties *)

(** ** 32-bit coercions *)

Lemma to_uint32_range x : 0 <= JS.to_uint32 x < 2 ^ 32.
Proof. unfold JS.to_uint32. apply Z.mod_pos_bound. lia. Qed.

Lemma to_int32_range x : - 2 ^ 31 <= JS.to_int32 x < 2 ^ 31.
Proof.
  unfold JS.to_int32.
  pose proof (Z.mod_pos_bound (x + 2 ^ 31) (2 ^ 32) ltac:(lia)). lia.
Qed.

Lemma to_uint32_small x : 0 <= x < 2 ^ 32 -> JS.to_uint32 x = x.
Proof. intros. unfold JS.to_uint32. now apply Z.mod_small. Qed.

Lemma to_int32_small x : - 2 ^ 31 <= x < 2 ^ 31 -> JS.to_int32 x = x.
Proof. intros. unfold JS.to_int32. rewrite Z.mod_small; lia. Qed.

Lemma to_int32_idem x : JS.to_int32 (JS.to_int32 x) = JS.to_int32 x.
Proof. apply to_int32_small, to_int32_range. Qed.

Lemma to_uint32_to_int32 x : JS.to_uint32 (JS.to_int32 x) = JS.to_uint32 x.
Proof.
  unfold JS.to_uint32, JS.to_int32.
  rewrite Zminus_mod, Zmod_mod, <- Zminus_mod. f_equal. lia.
Qed.

Lemma to_int32_to_uint32 x : JS.to_int32 (JS.to_uint32 x) = JS.to_int32 x.
Proof.
  unfold JS.to_uint32, JS.to_int32.
  rewrite Zplus_mod, Zmod_mod, <- Zplus_mod. reflexivity.
Qed.

Lemma to_uint32_add x y :
  JS.to_uint32 (x + y) = (JS.to_uint32 x + JS.to_uint32 y) mod 2 ^ 32.
Proof. unfold JS.to_uint32. apply Zplus_mod. Qed.

Lemma testbit_to_uint32 x n :
  Z.testbit (JS.to_uint32 x) n = (n <? 32) && Z.testbit x n.
Proof. unfold JS.to_uint32. apply Z.testbit_mod_pow2. lia. Qed.

Lemma testbit_to_int32_low x n :
  n < 32 -> Z.testbit (JS.to_int32 x) n = Z.testbit x n.
Proof.
  intros Hn.
  rewrite <- (Z.mod_pow2_bits_low (JS.to_int32 x) 32 n Hn).
  change (JS.to_int32 x mod 2 ^ 32) with (JS.to_uint32 (JS.to_int32 x)).
  rewrite to_uint32_to_int32. unfold JS.to_uint32.
  now apply Z.mod_pow2_bits_low.
Qed.

Lemma or_0_r x : JS.or x 0 = JS.to_int32 x.
Proof.
  unfold JS.or. change (JS.to_int32 0) with 0. apply Z.lor_0_r.
Qed.

(** ** The bitwise operators on unsigned readings *)

Ltac bits32 :=
  apply Z.bits_inj'; intros n Hn;
  repeat first
    [ rewrite testbit_to_uint32
    | rewrite Z.testbit_mod_pow2 by lia
    | rewrite Z.lor_spec | rewrite Z.land_spec | rewrite Z.lxor_spec
    | rewrite Z.lnot_spec by lia ];
  destruct (Z.ltb_spec n 32);
  [ rewrite ?testbit_to_int32_low by lia | ];
  simpl; rewrite ?andb_false_r; try reflexivity.

Lemma to_uint32_and x y :
  JS.to_uint32 (JS.and x y) = Z.land (JS.to_uint32 x) (JS.to_uint32 y).
Proof. unfold JS.and. bits32. Qed.

Lemma to_uint32_or x y :
  JS.to_uint32 (JS.or x y) = Z.lor (JS.to_uint32 x) (JS.to_uint32 y).
Proof. unfold JS.or. bits32. Qed.

Lemma to_uint32_xor x y :
  JS.to_uint32 (JS.xor x y) = Z.lxor (JS.to_uint32 x) (JS.to_uint32 y).
Proof. unfold JS.xor. bits32. Qed.

Lemma to_uint32_not x :
  JS.to_uint32 (JS.not x) = Spec.not32 (JS.to_uint32 x).
Proof. unfold JS.not, Spec.not32. bits32. Qed.

Lemma shift_count s : 0 <= s < 32 -> Z.land (JS.to_uint32 s) 31 = s.
Proof.
  intros Hs. rewrite to_uint32_small by lia.
  change 31 with (Z.ones 5). rewrite Z.land_ones by lia.
  apply Z.mod_small. lia.
Qed.

Lemma to_uint32_shl x s :
  0 <= s < 32 ->
  JS.to_uint32 (JS.shl x s) = (JS.to_uint32 x * 2 ^ s) mod 2 ^ 32.
Proof.
  intros Hs. unfold JS.shl. rewrite shift_count by lia.
  rewrite to_uint32_to_int32, Z.shiftl_mul_pow2 by lia.
  unfold JS.to_uint32 at 1. rewrite Zmult_mod.
  change (JS.to_int32 x mod 2 ^ 32) with (JS.to_uint32 (JS.to_int32 x)).
  rewrite to_uint32_to_int32. unfold JS.to_uint32.
  now rewrite <- Zmult_mod, Zmult_mod_idemp_l.
Qed.

Lemma shru_div x s :
  0 <= s < 32 -> JS.shru x s = JS.to_uint32 x / 2 ^ s.
Proof.
  intros Hs. unfold JS.shru. rewrite shift_count by lia.
  apply Z.shiftr_div_pow2. lia.
Qed.

Lemma shru_0 x : JS.shru x 0 = JS.to_uint32 x.
Proof. rewrite shru_div by lia. apply Z.div_1_r. Qed.

(** The code's [rotl], read as an unsigned word, is the left rotation of the
    unsigned reading of its argument. *)
Lemma to_uint32_rotl x s :
  0 < s < 32 ->
  JS.to_uint32 (rotl x s) = Spec.rotl32 (JS.to_uint32 x) s.
Proof.
  intros Hs. unfold rotl, Spec.rotl32.
  rewrite to_uint32_or, to_uint32_shl by lia.
  rewrite shru_0, (shru_div x (32 - s)) by lia.
  pose proof (to_uint32_range x) as Hx.
  set (X := JS.to_uint32 x) in *.
  assert (Hq : 0 <= X / 2 ^ (32 - s) < 2 ^ s).
  { split; [apply Z.div_pos; lia |].
    apply Z.div_lt_upper_bound; [lia |].
    rewrite <- Z.pow_add_r by lia. now replace (32 - s + s) with 32 by lia. }
  assert (Hs32 : 2 ^ s <= 2 ^ 32) by (apply Z.pow_le_mono_r; lia).
  rewrite (to_uint32_small (X / _)) by lia.
  rewrite (to_uint32_small (X / _)) by lia.
  rewrite <- Z.lxor_lor, <- Z.add_nocarry_lxor; try reflexivity.
  all: apply Z.bits_inj'; intros n Hn;
    rewrite Z.land_spec, Z.bits_0, Z.testbit_mod_pow2 by lia;
    rewrite Z.mul_pow2_bits by lia;
    destruct (Z.ltb_spec n s) as [Hlt | Hge];
    [ rewrite (Z.testbit_neg_r X (n - s)) by lia; now rewrite andb_false_r
    | replace (Z.testbit (X / 2 ^ (32 - s)) n) with false;
      [ now rewrite andb_false_r | ] ];
    symmetry; apply (Z.bits_above_log2 (X / 2 ^ (32 - s)) n); [lia |];
    destruct (Z.eq_dec (X / 2 ^ (32 - s)) 0) as [-> | Hnz]; [simpl; lia |];
    apply Z.log2_lt_pow2; [lia |];
    pose proof (Z.pow_le_mono_r 2 s n ltac:(lia) ltac:(lia)); lia.
Qed.

(** Rotation moves bit [(i - n) mod 32] to position [i]. *)
Lemma rotl32_bits x n i :
  0 <= x < 2 ^ 32 -> 0 < n < 32 -> 0 <= i < 32 ->
  Z.testbit (Spec.rotl32 x n) i = Z.testbit x ((i - n) mod 32).
Proof.
  intros Hx Hn Hi. unfold Spec.rotl32.
  assert (Hq : 0 <= x / 2 ^ (32 - n) < 2 ^ n).
  { split; [apply Z.div_pos; lia |].
    apply Z.div_lt_upper_bound; [lia |].
    rewrite <- Z.pow_add_r by lia. now replace (32 - n + n) with 32 by lia. }
  assert (Hdisj : Z.land ((x * 2 ^ n) mod 2 ^ 32) (x / 2 ^ (32 - n)) = 0).
  { apply Z.bits_inj'; intros k Hk.
    rewrite Z.land_spec, Z.bits_0, Z.testbit_mod_pow2 by lia.
    rewrite Z.mul_pow2_bits by lia.
    destruct (Z.ltb_spec k n) as [Hlt | Hge].
    - rewrite (Z.testbit_neg_r x (k - n)) by lia. now rewrite andb_false_r.
    - replace (Z.testbit (x / 2 ^ (32 - n)) k) with false;
        [now rewrite andb_false_r |].
      symmetry. apply Z.bits_above_log2; [lia |].
      destruct (Z.eq_dec (x / 2 ^ (32 - n)) 0) as [-> | Hnz]; [simpl; lia |].
      apply Z.log2_lt_pow2; [lia |].
      pose proof (Z.pow_le_mono_r 2 n k ltac:(lia) ltac:(lia)). lia. }
  rewrite Z.add_nocarry_lxor, Z.lxor_lor by exact Hdisj.
  rewrite Z.lor_spec, Z.testbit_mod_pow2, Z.mul_pow2_bits by lia.
  rewrite <- Z.shiftr_div_pow2, Z.shiftr_spec by lia.
  destruct (Z.ltb_spec i 32); [| lia]. simpl.
  destruct (Z.ltb_spec i n) as [Hlt | Hge].
  - rewrite (Z.testbit_neg_r x (i - n)) by lia. simpl.
    f_equal. replace (i - n) with (i + (32 - n) + (-1) * 32) by lia.
    rewrite Z_mod_plus_full. symmetry. apply Z.mod_small. lia.
  - replace (Z.testbit x (i + (32 - n))) with false.
    + rewrite orb_false_r. f_equal. symmetry. apply Z.mod_small. lia.
    + symmetry. destruct (Z.eq_dec x 0) as [-> | Hnz]; [apply Z.bits_0 |].
      apply Z.bits_above_log2; [lia |].
      apply Z.log2_lt_pow2; [lia |].
      pose proof (Z.pow_le_mono_r 2 32 (i + (32 - n)) ltac:(lia) ltac:(lia)).
      lia.
Qed.

(** ** Loading the message schedule *)

Lemma byte_val_range b : 0 <= byte_val b < 256.
Proof. unfold byte_val. pose proof (Byte.to_N_bounded b). lia. Qed.

Lemma le_value_range bs : 0 <= le_value bs < 256 ^ Z.of_nat (length bs).
Proof.
  induction bs as [| b bs IH]; simpl le_value; [simpl; lia |].
  rewrite length_cons, Nat2Z.inj_succ, Z.pow_succ_r by lia.
  pose proof (byte_val_range b). lia.
Qed.

Lemma word_range (bs : list byte) : 0 <= le_value (take 4 bs) < 2 ^ 32.
Proof.
  pose proof (le_value_range (take 4 bs)) as H.
  assert (Hl : (length (take 4 bs) <= 4)%nat) by (rewrite length_take; lia).
  assert (256 ^ Z.of_nat (length (take 4 bs)) <= 256 ^ 4)
    by (apply Z.pow_le_mono_r; lia).
  change (256 ^ 4) with (2 ^ 32) in *. lia.
Qed.

Lemma getUint32_in_range m view bs off :
  m !! view = Some bs -> 0 <= off -> off + 4 <= Z.of_nat (length bs) ->
  getUint32 m view off = inr (le_value (take 4 (drop (Z.to_nat off) bs))).
Proof.
  intros Hm H0 H4. unfold getUint32. rewrite Hm.
  destruct (Z.ltb_spec off 0); [lia |].
  destruct (Z.ltb_spec (Z.of_nat (length bs)) (off + 4)); [lia | reflexivity].
Qed.

Lemma load_W_in_range m view bs :
  m !! view = Some bs ->
  forall n i off W,
    0 <= off -> off + 4 * Z.of_nat n <= Z.of_nat (length bs) ->
    (i + n = length W)%nat ->
    load_W n i off m view W = (take i W ++ words_at bs off n, None).
Proof.
  intros Hm. induction n as [| n IH]; intros i off W H0 Hlen Hi.
  - simpl. rewrite app_nil_r, take_ge by lia. reflexivity.
  - simpl load_W. rewrite (getUint32_in_range m view bs off Hm) by lia.
    rewrite IH by (rewrite ?length_insert; lia).
    rewrite to_uint32_small by apply word_range.
    simpl words_at.
    rewrite (take_S_r _ i (le_value (take 4 (drop (Z.to_nat off) bs))))
      by (apply list_lookup_insert_eq; lia).
    rewrite take_insert_ge by lia. now rewrite <- app_assoc.
Qed.

Lemma words_at_schedule_aux bs o :
  forall n k,
    (4 * (k + n) <= 64)%nat ->
    words_at bs (Z.of_nat (o + 4 * k)) n
    = (fun i => le_value (take 4 (drop (4 * i) (take 64 (drop o bs)))))
        <$> seq k n.
Proof.
  induction n as [| n IH]; intros k Hk; [reflexivity |].
  cbn [words_at seq]. rewrite fmap_cons. f_equal.
  - rewrite Nat2Z.id. f_equal. symmetry.
    rewrite (take_drop_commute (take 64 (drop o bs))), take_take.
    replace ((4 * k + 4) `min` 64)%nat with (4 * k + 4)%nat by lia.
    rewrite <- take_drop_commute, drop_drop. reflexivity.
  - replace (Z.of_nat (o + 4 * k) + 4) with (Z.of_nat (o + 4 * S k)) by lia.
    apply IH. lia.
Qed.

Lemma words_at_schedule bs off :
  0 <= off ->
  words_at bs off 16 = Spec.schedule (take 64 (drop (Z.to_nat off) bs)).
Proof.
  intros H0. unfold Spec.schedule.
  rewrite <- (words_at_schedule_aux bs (Z.to_nat off) 16 0) by lia.
  f_equal. lia.
Qed.

(** ** One round of the code against one round of the specification *)

Lemma mod_sum4 p q r t :
  (p + q + r + t) mod 2 ^ 32
  = (p mod 2 ^ 32 + q mod 2 ^ 32 + r + t) mod 2 ^ 32.
Proof.
  replace (p mod 2 ^ 32 + q mod 2 ^ 32 + r + t)
    with (p mod 2 ^ 32 + (q mod 2 ^ 32 + (r + t))) by ring.
  rewrite Zplus_mod_idemp_l.
  replace (p + (q mod 2 ^ 32 + (r + t)))
    with (q mod 2 ^ 32 + (p + r + t)) by ring.
  rewrite Zplus_mod_idemp_l. f_equal. ring.
Qed.

Lemma shift_range i : 0 <= i < 64 -> 0 < Spec.shift i < 32.
Proof.
  intros Hi. unfold Spec.shift, Spec.shiftGroup.
  assert (Hm : i mod 4 = 0 \/ i mod 4 = 1 \/ i mod 4 = 2 \/ i mod 4 = 3)
    by (pose proof (Z.mod_pos_bound i 4); lia).
  destruct Hm as [-> | [-> | [-> | ->]]];
    repeat match goal with |- context [?a <? ?b] => destruct (a <? b) end;
    simpl; lia.
Qed.


Lemma round_unfold W i A0 B0 C0 D0 :
  0 <= i < 64 ->
  round W i (A0, B0, C0, D0)
  = (D0,
     B0 + rotl ((if i <? 16 then Chi B0 C0 D0
                 else if i <? 32 then Chi D0 B0 C0
                 else if i <? 48 then JS.xor (JS.xor B0 C0) D0
                 else JS.xor C0 (JS.or B0 (JS.not D0)))
                + A0 + JS.idx MD5_K i + JS.idx W (Spec.g i)) (Spec.shift i),
     B0, C0).
Proof.
  intros Hi. unfold round, Spec.g, Spec.shift, Spec.shiftGroup, JS.rem, JS.idx.
  rewrite !Z.rem_mod_nonneg by lia.
  repeat match goal with |- context [?a <? ?b] => destruct (a <? b) end;
    reflexivity.
Qed.

Lemma F_sim i b c d :
  JS.to_uint32 (if i <? 16 then Chi b c d
                else if i <? 32 then Chi d b c
                else if i <? 48 then JS.xor (JS.xor b c) d
                else JS.xor c (JS.or b (JS.not d)))
  = Spec.F i (JS.to_uint32 b) (JS.to_uint32 c) (JS.to_uint32 d).
Proof.
  unfold Spec.F, Chi.
  repeat match goal with |- context [?a <? ?b] => destruct (a <? b) end;
    now rewrite ?to_uint32_or, ?to_uint32_xor, ?to_uint32_and, ?to_uint32_not,
      ?to_uint32_or, ?to_uint32_not.
Qed.

Lemma round_sim W i st :
  0 <= i < 64 ->
  map4 JS.to_uint32 (round W i st) = Spec.step W (map4 JS.to_uint32 st) i.
Proof.
  intros Hi. destruct st as [[[a b] c] d].
  rewrite round_unfold by lia. unfold Spec.step, map4.
  rewrite to_uint32_add, to_uint32_rotl by (apply shift_range; lia).
  rewrite <- F_sim. unfold JS.idx.
  f_equal. f_equal. f_equal. f_equal. f_equal. f_equal.
  unfold JS.to_uint32. apply mod_sum4.
Qed.

Lemma rounds_sim W n :
  forall i st,
    0 <= i -> i + Z.of_nat n <= 64 ->
    map4 JS.to_uint32 (rounds n W i st)
    = fold_left (Spec.step W) (seqZ i (Z.of_nat n)) (map4 JS.to_uint32 st).
Proof.
  induction n as [| n IH]; intros i st H0 Hn; [reflexivity |].
  rewrite seqZ_cons by lia. simpl rounds. simpl fold_left.
  rewrite IH, round_sim by lia.
  now replace (Z.pred (Z.of_nat (S n))) with (Z.of_nat n) by lia.
Qed.

(** ** Adequacy of the integer model *)

(** Every array read of [round] is inside its array. *)
Lemma K_index_in_range i :
  0 <= i < 64 -> (Z.to_nat i < length MD5_K)%nat.
Proof. intros Hi. change (length MD5_K) with 64%nat. lia. Qed.

Lemma s_index_in_range i : 0 <= i -> 0 <= JS.rem i 4 < 4.
Proof.
  intros Hi. unfold JS.rem. rewrite Z.rem_mod_nonneg by lia.
  apply Z.mod_pos_bound. lia.
Qed.

(** Above bit 30 a signed 32-bit integer repeats its sign. *)
Lemma testbit_int32_high y n :
  - 2 ^ 31 <= y < 2 ^ 31 -> 31 <= n -> Z.testbit y n = (y <? 0).
Proof.
  intros Hy Hn.
  pose proof (Z.pow_le_mono_r 2 31 n ltac:(lia) ltac:(lia)) as Hp.
  destruct (Z.ltb_spec y 0) as [Hneg | Hpos].
  - apply Z.bits_above_log2_neg; [lia |].
    destruct (Z.eq_dec (Z.pred (- y)) 0) as [-> | Hnz]; [simpl; lia |].
    apply Z.log2_lt_pow2; lia.
  - destruct (Z.eq_dec y 0) as [-> | Hnz]; [apply Z.bits_0 |].
    apply Z.bits_above_log2; [lia |]. apply Z.log2_lt_pow2; lia.
Qed.

Lemma int32_from_bits x :
  (forall n, 31 <= n -> Z.testbit x n = Z.testbit x 31) ->
  - 2 ^ 31 <= x < 2 ^ 31.
Proof.
  intros Hx. replace x with (JS.to_int32 x); [apply to_int32_range |].
  apply Z.bits_inj'. intros n Hn.
  destruct (Z.ltb_spec n 32) as [Hlt | Hge].
  - now apply testbit_to_int32_low.
  - rewrite (testbit_int32_high (JS.to_int32 x) n), Hx
      by (try apply to_int32_range; lia).
    rewrite <- (testbit_to_int32_low x 31) by lia.
    symmetry. apply testbit_int32_high; [apply to_int32_range | lia].
Qed.

Ltac int32_bits :=
  apply int32_from_bits; intros n Hn;
  rewrite ?Z.lor_spec, ?Z.land_spec, ?Z.lxor_spec, ?Z.lnot_spec by lia;
  rewrite !(testbit_int32_high (JS.to_int32 _))
    by (try apply to_int32_range; lia);
  reflexivity.

(** The bitwise operators return signed 32-bit integers. *)
Lemma and_range x y : - 2 ^ 31 <= JS.and x y < 2 ^ 31.
Proof. unfold JS.and. int32_bits. Qed.

Lemma or_range x y : - 2 ^ 31 <= JS.or x y < 2 ^ 31.
Proof. unfold JS.or. int32_bits. Qed.

Lemma xor_range x y : - 2 ^ 31 <= JS.xor x y < 2 ^ 31.
Proof. unfold JS.xor. int32_bits. Qed.

Lemma not_range x : - 2 ^ 31 <= JS.not x < 2 ^ 31.
Proof.
  unfold JS.not, Z.lnot, Z.pred. pose proof (to_int32_range x). lia.
Qed.

Lemma rotl_range x s : - 2 ^ 31 <= rotl x s < 2 ^ 31.
Proof. apply or_range. Qed.

Lemma Chi_range a b c : - 2 ^ 31 <= Chi a b c < 2 ^ 31.
Proof. apply or_range. Qed.

(** The choice function written with XOR, as the two terms share no bit. *)
Lemma Chi_xor_form a b c :
  Chi a b c = JS.xor (JS.and a b) (JS.and (JS.not a) c).
Proof.
  unfold Chi, JS.or, JS.xor.
  rewrite !to_int32_small by apply and_range.
  symmetry. apply Z.lxor_lor. unfold JS.and, JS.not.
  set (x := JS.to_int32 a). rewrite (to_int32_small (Z.lnot x)).
  2: { pose proof (to_int32_range a). unfold Z.lnot, Z.pred. fold x. lia. }
  apply Z.bits_inj'. intros n Hn.
  rewrite !Z.land_spec, Z.lnot_spec, Z.bits_0 by lia.
  destruct (Z.testbit x n); simpl; [now rewrite andb_false_r | reflexivity].
Qed.

(** The numbers of one round stay small: with state words bounded by [M] in
    magnitude and schedule words below 2^32, the round sum is within
    [M + 2^31 + 2^33] and the new state words within [M + 2^31]. *)
Lemma round_safe W i a b c d M :
  0 <= i < 64 ->
  Forall (fun x => 0 <= x < 2 ^ 32) W ->
  Forall (fun x => Z.abs x <= M) [a; b; c; d] ->
  let '(a', b', c', d') := round W i (a, b, c, d) in
  Forall (fun x => Z.abs x <= M + 2 ^ 31) [a'; b'; c'; d'] /\
  exists F,
    - 2 ^ 31 <= F < 2 ^ 31 /\
    b' = b + rotl (F + a + JS.idx MD5_K i + JS.idx W (Spec.g i)) (Spec.shift i)
    /\ Z.abs (F + a + JS.idx MD5_K i + JS.idx W (Spec.g i))
       <= M + 2 ^ 31 + 2 ^ 33.
Proof.
  intros Hi HW Hst. rewrite round_unfold by lia.
  set (F := if i <? 16 then _ else _).
  assert (HF : - 2 ^ 31 <= F < 2 ^ 31).
  { subst F.
    repeat match goal with |- context [?a <? ?b] => destruct (a <? b) end;
      first [apply Chi_range | apply xor_range]. }
  assert (HK : 0 <= JS.idx MD5_K i < 2 ^ 32).
  { unfold JS.idx.
    assert (HKs : Forall (fun k => 0 <= k < 2 ^ 32) MD5_K)
      by (repeat constructor; lia).
    rewrite Forall_forall in HKs. apply HKs, list_elem_of_In, nth_In.
    now apply K_index_in_range. }
  assert (HWg : 0 <= JS.idx W (Spec.g i) < 2 ^ 32).
  { unfold JS.idx. rewrite Forall_forall in HW.
    destruct (Nat.lt_ge_cases (Z.to_nat (Spec.g i)) (length W)) as [Hlt | Hge].
    - now apply HW, list_elem_of_In, nth_In.
    - rewrite nth_overflow by lia. lia. }
  pose proof (rotl_range (F + a + JS.idx MD5_K i + JS.idx W (Spec.g i))
                (Spec.shift i)) as Hr.
  rewrite !Forall_cons in Hst. destruct Hst as (Ha & Hb & Hc & Hd & _).
  split.
  - repeat constructor; lia.
  - exists F. repeat split; try lia.
Qed.

(** The numbers of the whole loop stay far below 2^53, where doubles stop
    being exact: from signed 32-bit state words, after [n] rounds every
    state word is within [(n + 1) * 2^31]. *)
Lemma rounds_safe_integer W n :
  forall i st M,
    0 <= i -> i + Z.of_nat n <= 64 ->
    Forall (fun x => 0 <= x < 2 ^ 32) W ->
    (let '(a, b, c, d) := st in Forall (fun x => Z.abs x <= M) [a; b; c; d]) ->
    let '(a', b', c', d') := rounds n W i st in
    Forall (fun x => Z.abs x <= M + Z.of_nat n * 2 ^ 31) [a'; b'; c'; d'].
Proof.
  induction n as [| n IH]; intros i st M H0 Hn HW Hst.
  - cbn [rounds]. destruct st as [[[a b] c] d].
    now replace (M + Z.of_nat 0 * 2 ^ 31) with M by lia.
  - cbn [rounds]. destruct st as [[[a b] c] d].
    pose proof (round_safe W i a b c d M ltac:(lia) HW Hst) as Hr.
    destruct (round W i (a, b, c, d)) as [[[a1 b1] c1] d1].
    destruct Hr as [Hr _].
    specialize (IH (i + 1) (a1, b1, c1, d1) (M + 2 ^ 31)
                  ltac:(lia) ltac:(lia) HW Hr).
    destruct (rounds n W (i + 1) (a1, b1, c1, d1)) as [[[a2 b2] c2] d2].
    replace (M + Z.of_nat (S n) * 2 ^ 31)
      with (M + 2 ^ 31 + Z.of_nat n * 2 ^ 31) by lia.
    exact IH.
Qed.

(** ** The compression step *)

Lemma feed_forward x0 x :
  JS.or (x + x0) 0
  = JS.to_int32 ((JS.to_uint32 x0 + JS.to_uint32 x) mod 2 ^ 32).
Proof.
  rewrite or_0_r, <- to_uint32_add.
  rewrite to_int32_to_uint32. f_equal. lia.
Qed.

Lemma process_in_range w this o view bs offset a b c d :
  wf_world w ->
  heap w !! this = Some o ->
  mem w !! view = Some bs ->
  0 <= offset -> offset + 64 <= Z.of_nat (length bs) ->
  rounds 64 (Spec.schedule (take 64 (drop (Z.to_nat offset) bs))) 0 (words o)
  = (a, b, c, d) ->
  process w this view offset
  = Normal {| MD5_W := Spec.schedule (take 64 (drop (Z.to_nat offset) bs));
              mem := mem w;
              heap := <[this := set_fields o (JS.or (a + A o) 0)
                                  (JS.or (b + B o) 0) (JS.or (c + C o) 0)
                                  (JS.or (d + D o) 0)]> (heap w) |} tt.
Proof.
  intros Hwf Ho Hbs H0 H64 Hr. unfold process. rewrite Ho.
  unfold wf_world in Hwf.
  rewrite (load_W_in_range (mem w) view bs Hbs 16 0 offset) by lia.
  rewrite take_0, app_nil_l, words_at_schedule by lia.
  unfold words in Hr. rewrite Hr.
  unfold set. cbn [with_W heap mem MD5_W with_heap]. rewrite Ho.
  reflexivity.
Qed.

(** On a block inside the view [process] returns; it leaves the words of
    the block in the scratch array and a new object in place of the old. *)
Lemma process_returns w this o view bs offset :
  wf_world w ->
  heap w !! this = Some o ->
  mem w !! view = Some bs ->
  0 <= offset -> offset + 64 <= Z.of_nat (length bs) ->
  exists o',
    process w this view offset
    = Normal {| MD5_W := Spec.schedule (take 64 (drop (Z.to_nat offset) bs));
                mem := mem w;
                heap := <[this := o']> (heap w) |} tt.
Proof.
  intros Hwf Ho Hbs H0 H64.
  destruct (rounds 64 (Spec.schedule (take 64 (drop (Z.to_nat offset) bs))) 0
              (words o)) as [[[a b] c] d] eqn:Hr.
  eexists. exact (process_in_range w this o view bs offset a b c d
                    Hwf Ho Hbs H0 H64 Hr).
Qed.

(** C1: on every HashState and every 64-byte block inside the view,
    [process] completes normally, leaves the sixteen little-endian words of
    the block in the message schedule, and replaces the state by the MD5
    compression function of the specification (phase table, modular round
    sum, rotation, feed-forward) applied to the old state and the block; the
    words are stored as signed 32-bit integers and their unsigned readings
    are the words of the specification. *)
Theorem process_computes_md5_compression w this o view bs offset :
  wf_world w ->
  heap w !! this = Some o ->
  mem w !! view = Some bs ->
  0 <= offset -> offset + 64 <= Z.of_nat (length bs) ->
  let block := take 64 (drop (Z.to_nat offset) bs) in
  exists w' o',
    process w this view offset = Normal w' tt /\
    MD5_W w' = Spec.schedule block /\
    heap w' !! this = Some o' /\
    map4 JS.to_uint32 (words o')
    = Spec.compress (map4 JS.to_uint32 (words o)) block /\
    words o'
    = map4 JS.to_int32 (Spec.compress (map4 JS.to_uint32 (words o)) block).
Proof.
  intros Hwf Ho Hbs H0 H64 block.
  pose proof (rounds_sim (Spec.schedule block) 64 0 (words o)
                ltac:(lia) ltac:(lia)) as Hsim.
  change (Z.of_nat 64) with 64 in Hsim.
  destruct (rounds 64 (Spec.schedule block) 0 (words o))
    as [[[a b] c] d] eqn:Hr.
  pose proof (process_in_range w this o view bs offset a b c d
                Hwf Ho Hbs H0 H64 Hr) as Hp.
  fold block in Hp.
  eexists _, _. split; [exact Hp |]. cbn [MD5_W heap].
  split; [reflexivity |]. split; [apply lookup_insert_eq |].
  assert (Hw : words (set_fields o (JS.or (a + A o) 0) (JS.or (b + B o) 0)
                        (JS.or (c + C o) 0) (JS.or (d + D o) 0))
               = map4 JS.to_int32
                   (Spec.compress (map4 JS.to_uint32 (words o)) block)).
  { unfold Spec.compress. rewrite <- Hsim. unfold words.
    cbn [set_fields A B C D map4].
    rewrite !feed_forward, !or_0_r, !to_int32_idem. reflexivity. }
  split; [| exact Hw].
  rewrite Hw. unfold Spec.compress.
  destruct (map4 JS.to_uint32 (words o)) as [[[a0 b0] c0] d0].
  destruct (fold_left _ _ _) as [[[a1 b1] c1] d1].
  cbn [map4]. rewrite !to_uint32_to_int32.
  unfold JS.to_uint32. rewrite !Zmod_mod. reflexivity.
Qed.

Lemma process_computes_md5_compression_witness :
  let block := take 64 (drop (Z.to_nat 0) abc_block) in
  exists w' o',
    process (one_object abc_block) 0%nat 1%nat 0 = Normal w' tt /\
    MD5_W w' = Spec.schedule block /\
    heap w' !! 0%nat = Some o' /\
    map4 JS.to_uint32 (words o')
    = Spec.compress (map4 JS.to_uint32 (words (fresh 0%nat))) block /\
    words o'
    = map4 JS.to_int32
        (Spec.compress (map4 JS.to_uint32 (words (fresh 0%nat))) block).
Proof.
  apply (process_computes_md5_compression (one_object abc_block) 0%nat
           (fresh 0%nat) 1%nat abc_block 0).
  - reflexivity.
  - reflexivity.
  - reflexivity.
  - lia.
  - vm_compute. discriminate.
Defined.

(** The compression function of the specification, run on the initial
    value and the one block of "abc", gives the known digest. *)
Lemma Spec_compress_abc :
  hex (serialize (Spec.compress (map4 JS.to_uint32 (words (fresh 0%nat)))
                    abc_block))
  = "900150983cd24fb0d6963f7d28e17f72"%string.
Proof. vm_compute. reflexivity. Qed.

(** ** Independence from the prior scratch contents *)

Lemma load_W_indep m view n :
  forall i off W1 W2,
    length W1 = length W2 -> take i W1 = take i W2 ->
    (i + n = length W1)%nat ->
    snd (load_W n i off m view W1) = snd (load_W n i off m view W2) /\
    (snd (load_W n i off m view W1) = None ->
     fst (load_W n i off m view W1) = fst (load_W n i off m view W2)).
Proof.
  induction n as [| n IH]; intros i off W1 W2 Hlen Htake Hi.
  - cbn [load_W fst snd]. split; [reflexivity | intros _].
    rewrite <- (take_ge W1 i), <- (take_ge W2 i) by lia. exact Htake.
  - cbn [load_W]. destruct (getUint32 m view off) as [e | v].
    + cbn [fst snd]. split; [reflexivity | discriminate].
    + apply IH; rewrite ?length_insert; try lia.
      rewrite !(take_S_r _ i (JS.to_uint32 v))
        by (apply list_lookup_insert_eq; lia).
      rewrite !take_insert_ge by lia. now rewrite Htake.
Qed.

(** C7: what [process] does to the objects and the byte store, and how it
    completes, is the same for any two prior contents of the sixteen-word
    scratch array; on a well-formed block the worlds it leaves are equal. *)
Theorem process_ignores_prior_schedule w this view offset W1 W2 :
  length W1 = 16%nat -> length W2 = 16%nat ->
  outcome (process (with_W w W1) this view offset)
  = outcome (process (with_W w W2) this view offset) /\
  (forall o bs,
      heap w !! this = Some o -> mem w !! view = Some bs ->
      0 <= offset -> offset + 64 <= Z.of_nat (length bs) ->
      process (with_W w W1) this view offset
      = process (with_W w W2) this view offset).
Proof.
  intros H1 H2.
  destruct (load_W_indep (mem w) view 16 0 offset W1 W2) as [Hsnd Hfst];
    [congruence | reflexivity | lia |].
  unfold process. cbn [with_W heap mem MD5_W].
  split.
  - destruct (heap w !! this) as [o |] eqn:Ho; [| reflexivity].
    destruct (load_W 16 0 offset (mem w) view W1) as [V1 [e1 |]];
      destruct (load_W 16 0 offset (mem w) view W2) as [V2 [e2 |]];
      cbn [fst snd] in *; try discriminate.
    + injection Hsnd as ->. reflexivity.
    + rewrite <- (Hfst eq_refl).
      destruct (rounds 64 V1 0 (A o, B o, C o, D o)) as [[[a b] c] d].
      reflexivity.
  - intros o bs Ho Hbs H0 H64. rewrite Ho.
    rewrite !(load_W_in_range (mem w) view bs Hbs 16 0 offset) by lia.
    reflexivity.
Qed.

Lemma process_ignores_prior_schedule_witness :
  outcome (process (with_W (one_object abc_block) (replicate 16 0))
             0%nat 1%nat 0)
  = outcome (process (with_W (one_object abc_block) (replicate 16 7))
               0%nat 1%nat 0) /\
  (forall o bs,
      heap (one_object abc_block) !! 0%nat = Some o ->
      mem (one_object abc_block) !! 1%nat = Some bs ->
      0 <= 0 -> 0 + 64 <= Z.of_nat (length bs) ->
      process (with_W (one_object abc_block) (replicate 16 0)) 0%nat 1%nat 0
      = process (with_W (one_object abc_block) (replicate 16 7)) 0%nat 1%nat 0).
Proof.
  apply (process_ignores_prior_schedule (one_object abc_block) 0%nat 1%nat 0
           (replicate 16 0) (replicate 16 7)).
  - reflexivity.
  - reflexivity.
Defined.

(** ** Reads outside the view *)

Lemma load_W_out_of_range m view bs :
  m !! view = Some bs ->
  forall n i off W,
    off < 0 \/ Z.of_nat (length bs) < off + 4 * Z.of_nat (S n) ->
    exists W', load_W (S n) i off m view W = (W', Some JS.RangeError).
Proof.
  intros Hm. induction n as [| n IH]; intros i off W Hoff.
  - cbn [load_W]. unfold getUint32. rewrite Hm.
    destruct (Z.ltb_spec off 0); [eauto |].
    destruct (Z.ltb_spec (Z.of_nat (length bs)) (off + 4)); [eauto | lia].
  - change (load_W (S (S n)) i off m view W)
      with (match getUint32 m view off with
            | inl e => (W, Some e)
            | inr v => load_W (S n) (S i) (off + 4) m view
                         (<[i := JS.to_uint32 v]> W)
            end).
    unfold getUint32. rewrite Hm.
    destruct (Z.ltb_spec off 0); [eauto |].
    destruct (Z.ltb_spec (Z.of_nat (length bs)) (off + 4)); [eauto |].
    apply IH. lia.
Qed.

(** C9: when the view holds fewer than 64 bytes, or the offset is negative
    or leaves fewer than 64 bytes up to the end of the view, [process]
    throws a [RangeError]; it stores no state word, and changes neither an
    object nor the byte store. *)
Theorem process_out_of_range_throws w this o view bs offset :
  heap w !! this = Some o ->
  mem w !! view = Some bs ->
  Z.of_nat (length bs) < 64 \/ offset < 0
  \/ Z.of_nat (length bs) < offset + 64 ->
  exists w',
    process w this view offset = Throw w' JS.RangeError /\
    heap w' = heap w /\ mem w' = mem w.
Proof.
  intros Ho Hbs Hbad. unfold process. rewrite Ho.
  destruct (load_W_out_of_range (mem w) view bs Hbs 15 0 offset (MD5_W w))
    as [W' HW]; [lia |].
  rewrite HW. eexists. split; [reflexivity |]. split; reflexivity.
Qed.

Lemma process_out_of_range_throws_witness :
  exists w',
    process (one_object (take 63 abc_block)) 0%nat 1%nat 0
    = Throw w' JS.RangeError /\
    heap w' = heap (one_object (take 63 abc_block)) /\
    mem w' = mem (one_object (take 63 abc_block)).
Proof.
  apply (process_out_of_range_throws (one_object (take 63 abc_block)) 0%nat
           (fresh 0%nat) 1%nat (take 63 abc_block) 0).
  - reflexivity.
  - reflexivity.
  - left. vm_compute. reflexivity.
Defined.

(** ** What [process] leaves alone *)

(** C10: [process] leaves the byte store as it was, the input bytes among
    it, and every other object; of the object it runs on it keeps every
    field but the four state words. *)
Theorem process_frame w this view offset :
  mem (world_of (process w this view offset)) = mem w /\
  (forall q, q <> this ->
             heap (world_of (process w this view offset)) !! q = heap w !! q) /\
  match heap w !! this, heap (world_of (process w this view offset)) !! this with
  | Some o, Some o' =>
      (blockLen o', outputLen o', padOffset o', isLE o', buffer o')
      = (blockLen o, outputLen o, padOffset o, isLE o, buffer o)
  | None, None => True
  | _, _ => False
  end.
Proof.
  unfold process.
  destruct (heap w !! this) as [o |] eqn:Ho.
  - destruct (load_W 16 0 offset (mem w) view (MD5_W w)) as [W [e |]].
    + cbn [world_of with_W mem heap]. rewrite Ho. auto.
    + destruct (rounds 64 W 0 (A o, B o, C o, D o)) as [[[a b] c] d].
      unfold set. cbn [with_W heap]. rewrite Ho.
      cbn [world_of with_heap mem heap]. rewrite lookup_insert_eq.
      split; [reflexivity |]. split; [| reflexivity].
      intros q Hq. now apply lookup_insert_ne.
  - cbn [world_of]. rewrite Ho. auto.
Qed.

(** ** The state adapter: [get], [set], [destroy], [roundClean] *)

Lemma get_returns_state w this o :
  heap w !! this = Some o -> get w this = Normal w (words o).
Proof. intros Ho. unfold get. now rewrite Ho. Qed.

Lemma set_replaces_state w this o a b c d :
  heap w !! this = Some o ->
  set w this a b c d
  = Normal (with_heap w (<[this := set_fields o a b c d]> (heap w))) tt.
Proof. intros Ho. unfold set. now rewrite Ho. Qed.

Lemma words_set_fields o a b c d :
  words (set_fields o a b c d)
  = (JS.to_int32 a, JS.to_int32 b, JS.to_int32 c, JS.to_int32 d).
Proof. unfold words. cbn [set_fields A B C D]. now rewrite !or_0_r. Qed.

Lemma to_int32_congruent x : JS.to_int32 x mod 2 ^ 32 = x mod 2 ^ 32.
Proof. apply to_uint32_to_int32. Qed.

(** C4, as the code has it: [set] stores each argument wrapped to a signed
    32-bit integer, the value of [-2^31, 2^31) congruent to the argument
    modulo 2^32, and changes nothing but the four words of the object;
    [get] returns the four words in order and leaves the world as it is; so
    [get] after [set] returns the signed 32-bit wrap of each argument. *)
Theorem get_after_set w this o a b c d :
  heap w !! this = Some o ->
  get w this = Normal w (words o) /\
  exists w1 o1,
    set w this a b c d = Normal w1 tt /\
    MD5_W w1 = MD5_W w /\ mem w1 = mem w /\
    heap w1 = <[this := o1]> (heap w) /\
    (blockLen o1, outputLen o1, padOffset o1, isLE o1, buffer o1)
    = (blockLen o, outputLen o, padOffset o, isLE o, buffer o) /\
    words o1 = (JS.to_int32 a, JS.to_int32 b, JS.to_int32 c, JS.to_int32 d) /\
    get w1 this
    = Normal w1 (JS.to_int32 a, JS.to_int32 b, JS.to_int32 c, JS.to_int32 d) /\
    Forall (fun x => - 2 ^ 31 <= JS.to_int32 x < 2 ^ 31
                     /\ JS.to_int32 x mod 2 ^ 32 = x mod 2 ^ 32) [a; b; c; d].
Proof.
  intros Ho. split; [now apply get_returns_state |].
  exists (with_heap w (<[this := set_fields o a b c d]> (heap w))),
    (set_fields o a b c d).
  split; [now apply set_replaces_state |].
  repeat (split; [reflexivity |]).
  split; [apply words_set_fields |].
  split.
  - rewrite <- (words_set_fields o). apply get_returns_state.
    cbn [with_heap heap]. apply lookup_insert_eq.
  - repeat constructor; try apply to_int32_range; apply to_int32_congruent.
Qed.

Lemma get_after_set_witness :
  get (one_object []) 0%nat
  = Normal (one_object []) (words (fresh 0%nat)) /\
  exists w1 o1,
    set (one_object []) 0%nat 1 (2 ^ 32 - 1) (2 ^ 31) (- 5) = Normal w1 tt /\
    MD5_W w1 = MD5_W (one_object []) /\ mem w1 = mem (one_object []) /\
    heap w1 = <[0%nat := o1]> (heap (one_object [])) /\
    (blockLen o1, outputLen o1, padOffset o1, isLE o1, buffer o1)
    = (64, 16, 8, true, 0%nat) /\
    words o1 = (JS.to_int32 1, JS.to_int32 (2 ^ 32 - 1),
                JS.to_int32 (2 ^ 31), JS.to_int32 (- 5)) /\
    get w1 0%nat
    = Normal w1 (JS.to_int32 1, JS.to_int32 (2 ^ 32 - 1),
                 JS.to_int32 (2 ^ 31), JS.to_int32 (- 5)) /\
    Forall (fun x => - 2 ^ 31 <= JS.to_int32 x < 2 ^ 31
                     /\ JS.to_int32 x mod 2 ^ 32 = x mod 2 ^ 32)
      [1; 2 ^ 32 - 1; 2 ^ 31; - 5].
Proof.
  apply (get_after_set (one_object []) 0%nat (fresh 0%nat)
           1 (2 ^ 32 - 1) (2 ^ 31) (- 5)).
  reflexivity.
Defined.

(** C4 as stated fails: after [set] with the words of the initial value,
    which are 32-bit numbers, [get] returns the second and third as negative
    numbers, not as their values modulo 2^32. *)
Lemma get_after_set_not_unsigned :
  exists w1,
    set (one_object []) 0%nat 0x67452301 0xefcdab89 0x98badcfe 0x10325476
    = Normal w1 tt /\
    get w1 0%nat = Normal w1 (1732584193, -271733879, -1732584194, 271733878) /\
    (1732584193, -271733879, -1732584194, 271733878)
    <> (0x67452301 mod 2 ^ 32, 0xefcdab89 mod 2 ^ 32,
        0x98badcfe mod 2 ^ 32, 0x10325476 mod 2 ^ 32).
Proof.
  eexists. split; [reflexivity |]. split; [reflexivity |].
  vm_compute. discriminate.
Qed.

(** C5, as the code has it: [destroy] sets the four state words of the
    object to zero and fills the byte buffer the object holds with zero
    bytes, as many as before; it changes nothing else, and in particular
    leaves the module-level scratch array [MD5_W] with whatever words it
    held. *)
Theorem destroy_zeroizes_object w this o bs :
  heap w !! this = Some o ->
  mem w !! buffer o = Some bs ->
  exists w' o',
    destroy w this = Normal w' tt /\
    heap w' = <[this := o']> (heap w) /\
    words o' = (0, 0, 0, 0) /\
    (blockLen o', outputLen o', padOffset o', isLE o', buffer o')
    = (blockLen o, outputLen o, padOffset o, isLE o, buffer o) /\
    mem w' = <[buffer o := replicate (length bs) x00]> (mem w) /\
    MD5_W w' = MD5_W w.
Proof.
  intros Ho Hbs. unfold destroy. rewrite (set_replaces_state w this o) by done.
  cbn [with_heap heap mem]. rewrite lookup_insert_eq.
  cbn [set_fields buffer]. rewrite Hbs.
  eexists _, _. split; [reflexivity |].
  cbn [with_mem with_heap heap mem MD5_W].
  repeat (split; [reflexivity |]). reflexivity.
Qed.

Lemma destroy_zeroizes_object_witness :
  exists w' o',
    destroy (with_W (one_object abc_block) (Spec.schedule abc_block)) 0%nat
    = Normal w' tt /\
    heap w' = <[0%nat := o']> (heap (one_object abc_block)) /\
    words o' = (0, 0, 0, 0) /\
    (blockLen o', outputLen o', padOffset o', isLE o', buffer o')
    = (64, 16, 8, true, 0%nat) /\
    mem w' = <[0%nat := replicate 64 x00]> (mem (one_object abc_block)) /\
    MD5_W w' = Spec.schedule abc_block.
Proof.
  apply (destroy_zeroizes_object
           (with_W (one_object abc_block) (Spec.schedule abc_block)) 0%nat
           (fresh 0%nat) (replicate 64 x00)).
  - reflexivity.
  - reflexivity.
Defined.

(** C5 as stated fails: after a block has been processed, [destroy]
    returns with the state words and the byte buffer zeroed, and the scratch
    array still holds the sixteen words of the block, the first of them
    0x80636261 for the padded message "abc". *)
Lemma destroy_leaves_scratch_words :
  exists w1 w2 o2,
    process (one_object abc_block) 0%nat 1%nat 0 = Normal w1 tt /\
    destroy w1 0%nat = Normal w2 tt /\
    heap w2 !! 0%nat = Some o2 /\
    words o2 = (0, 0, 0, 0) /\
    mem w2 !! buffer o2 = Some (replicate 64 x00) /\
    MD5_W w2 = Spec.schedule abc_block /\
    MD5_W w2 !! 0%nat = Some 0x80636261 /\
    MD5_W w2 <> replicate 16 0.
Proof.
  exists (world_of (process (one_object abc_block) 0%nat 1%nat 0)),
    (world_of
       (destroy (world_of (process (one_object abc_block) 0%nat 1%nat 0))
          0%nat)),
    (set_fields (fresh 0%nat) 0 0 0 0).
  do 7 (split; [vm_compute; reflexivity |]).
  vm_compute. discriminate.
Qed.

Lemma roundClean_on_object w this o :
  heap w !! this = Some o ->
  roundClean w this = Normal (with_W w (replicate (length (MD5_W w)) 0)) tt.
Proof. intros Ho. unfold roundClean. now rewrite Ho. Qed.

Lemma set_keeps_scratch w this a b c d :
  MD5_W (world_of (set w this a b c d)) = MD5_W w.
Proof. unfold set. now destruct (heap w !! this). Qed.

(** Calls other than [process] write [MD5_W] only to fill it with zeros. *)
Lemma run_call_keeps_zero_scratch w c n :
  is_process c = false ->
  MD5_W w = replicate n 0 -> MD5_W (run_call w c) = replicate n 0.
Proof.
  intros Hc Hz. destruct c as [t | t a b c d | t v off | t | t];
    try discriminate; cbn [run_call].
  - unfold get. now destruct (heap w !! t).
  - now rewrite set_keeps_scratch.
  - unfold roundClean. destruct (heap w !! t); cbn [world_of with_W MD5_W];
      [| exact Hz].
    now rewrite Hz, length_replicate.
  - unfold destroy.
    pose proof (set_keeps_scratch w t 0 0 0 0) as Hs.
    destruct (set w t 0 0 0 0) as [w1 [] | w1 e]; cbn [world_of] in Hs |- *;
      [| congruence].
    destruct (heap w1 !! t) as [o1 |]; cbn [world_of]; [| congruence].
    destruct (mem w1 !! buffer o1); cbn [world_of with_mem MD5_W]; congruence.
Qed.

Lemma run_keeps_zero_scratch cs :
  forall w n,
    forallb (fun c => negb (is_process c)) cs = true ->
    MD5_W w = replicate n 0 -> MD5_W (run w cs) = replicate n 0.
Proof.
  induction cs as [| c cs IH]; intros w n Hcs Hz; [exact Hz |].
  cbn [forallb] in Hcs. apply andb_true_iff in Hcs as [Hc Hcs].
  apply negb_true_iff in Hc. unfold run. cbn [fold_left].
  apply IH; [exact Hcs |]. now apply run_call_keeps_zero_scratch.
Qed.

(** C6: [roundClean] leaves each of the sixteen words of the message
    schedule zero and changes neither the byte store nor any object; the
    words stay zero through any calls until the next [process]. *)
Theorem roundClean_zeroes_schedule w this o :
  wf_world w ->
  heap w !! this = Some o ->
  exists w',
    roundClean w this = Normal w' tt /\
    MD5_W w' = replicate 16 0 /\
    (forall i, (i < 16)%nat -> MD5_W w' !! i = Some 0) /\
    mem w' = mem w /\ heap w' = heap w /\
    forall cs,
      forallb (fun c => negb (is_process c)) cs = true ->
      MD5_W (run w' cs) = replicate 16 0.
Proof.
  intros Hwf Ho. unfold wf_world in Hwf.
  exists (with_W w (replicate 16 0)).
  split; [rewrite (roundClean_on_object w this o Ho), Hwf; reflexivity |].
  split; [reflexivity |].
  split; [intros i Hi; cbn [with_W MD5_W]; now apply lookup_replicate_2 |].
  split; [reflexivity |]. split; [reflexivity |].
  intros cs Hcs. now apply run_keeps_zero_scratch.
Qed.

Lemma roundClean_zeroes_schedule_witness :
  exists w',
    roundClean (with_W (one_object abc_block) (Spec.schedule abc_block)) 0%nat
    = Normal w' tt /\
    MD5_W w' = replicate 16 0 /\
    (forall i, (i < 16)%nat -> MD5_W w' !! i = Some 0) /\
    mem w' = mem (one_object abc_block) /\
    heap w' = heap (one_object abc_block) /\
    forall cs,
      forallb (fun c => negb (is_process c)) cs = true ->
      MD5_W (run w' cs) = replicate 16 0.
Proof.
  apply (roundClean_zeroes_schedule
           (with_W (one_object abc_block) (Spec.schedule abc_block)) 0%nat
           (fresh 0%nat)).
  - reflexivity.
  - reflexivity.
Defined.

(** ** The world invariant *)

Lemma load_W_length m view n :
  forall i off W, length (fst (load_W n i off m view W)) = length W.
Proof.
  induction n as [| n IH]; intros i off W; [reflexivity |].
  cbn [load_W]. destruct (getUint32 m view off) as [e | v]; [reflexivity |].
  now rewrite IH, length_insert.
Qed.

Lemma process_keeps_scratch_length w this view offset :
  length (MD5_W (world_of (process w this view offset))) = length (MD5_W w).
Proof.
  unfold process. destruct (heap w !! this) as [o |]; [| reflexivity].
  pose proof (load_W_length (mem w) view 16 0 offset (MD5_W w)) as Hl.
  destruct (load_W 16 0 offset (mem w) view (MD5_W w)) as [W [e |]];
    cbn [fst] in Hl; [exact Hl |].
  destruct (rounds 64 W 0 (A o, B o, C o, D o)) as [[[a b] c] d].
  now rewrite set_keeps_scratch.
Qed.

(** [destroy] leaves the module-level scratch array as it is. *)
Lemma destroy_keeps_scratch w this :
  MD5_W (world_of (destroy w this)) = MD5_W w.
Proof.
  unfold destroy. pose proof (set_keeps_scratch w this 0 0 0 0) as Hs.
  destruct (set w this 0 0 0 0) as [w1 [] | w1 e]; cbn [world_of] in Hs |- *;
    [| exact Hs].
  destruct (heap w1 !! this) as [o1 |]; cbn [world_of]; [| exact Hs].
  destruct (mem w1 !! buffer o1); cbn [world_of with_mem MD5_W]; exact Hs.
Qed.

Lemma init_world_wf : wf_world init_world.
Proof. reflexivity. Qed.

Lemma new_MD5_wf w this buf : wf_world w -> wf_world (new_MD5 w this buf).
Proof. intros Hw. exact Hw. Qed.

(** Every call keeps the sixteen slots of the scratch array. *)
Lemma run_call_wf w c : wf_world w -> wf_world (run_call w c).
Proof.
  unfold wf_world. intros Hw.
  destruct c as [t | t a b c d | t v off | t | t]; cbn [run_call].
  - unfold get. now destruct (heap w !! t).
  - now rewrite set_keeps_scratch.
  - now rewrite process_keeps_scratch_length.
  - unfold roundClean. destruct (heap w !! t); cbn [world_of with_W MD5_W];
      [| exact Hw].
    now rewrite length_replicate.
  - now rewrite destroy_keeps_scratch.
Qed.

Lemma run_wf cs : forall w, wf_world w -> wf_world (run w cs).
Proof.
  induction cs as [| c cs IH]; intros w Hw; [exact Hw |].
  unfold run. cbn [fold_left]. apply IH. now apply run_call_wf.
Qed.

(** ** One scratch array for the whole module *)

(** C8 as stated fails: with two objects, a [process] call on the first
    changes the scratch array the second one uses. *)
Lemma scratch_not_instance_owned :
  exists w',
    process (two_objects abc_block) 0%nat 1%nat 0 = Normal w' tt /\
    heap (two_objects abc_block) !! 1%nat <> None /\
    scratch_of (two_objects abc_block) 1%nat = replicate 16 0 /\
    scratch_of w' 1%nat <> scratch_of (two_objects abc_block) 1%nat.
Proof.
  destruct (process (two_objects abc_block) 0%nat 1%nat 0) as [w' [] | w' e]
    eqn:Hp; [| vm_compute in Hp; discriminate].
  exists w'. split; [reflexivity |].
  split; [vm_compute; discriminate |]. split; [reflexivity |].
  assert (Hw : MD5_W w' = Spec.schedule abc_block).
  { change (MD5_W w')
      with (MD5_W (world_of (Normal (T := unit) w' tt))).
    rewrite <- Hp. vm_compute. reflexivity. }
  unfold scratch_of. rewrite Hw. vm_compute. discriminate.
Qed.

(** C8, as the code has it: the scratch array is one module-level array,
    the same for every object; a [process] call on any object leaves in it
    the words of that call's block, whichever object looks, and a
    [roundClean] on any object zeroes it for all. *)
Theorem scratch_is_module_level w p q o view bs offset :
  wf_world w ->
  heap w !! p = Some o ->
  mem w !! view = Some bs ->
  0 <= offset -> offset + 64 <= Z.of_nat (length bs) ->
  scratch_of w p = scratch_of w q /\
  scratch_of (world_of (process w p view offset)) q
  = Spec.schedule (take 64 (drop (Z.to_nat offset) bs)) /\
  scratch_of (world_of (roundClean (world_of (process w p view offset)) p)) q
  = replicate 16 0.
Proof.
  intros Hwf Ho Hbs H0 H64. split; [reflexivity |].
  destruct (process_returns w p o view bs offset Hwf Ho Hbs H0 H64)
    as [o' Hp].
  rewrite Hp. cbn [world_of]. unfold scratch_of. split; [reflexivity |].
  rewrite (roundClean_on_object _ p o')
    by (cbn [heap]; apply lookup_insert_eq).
  reflexivity.
Qed.

Lemma scratch_is_module_level_witness :
  scratch_of (two_objects abc_block) 0%nat
  = scratch_of (two_objects abc_block) 1%nat /\
  scratch_of (world_of (process (two_objects abc_block) 0%nat 1%nat 0)) 1%nat
  = Spec.schedule (take 64 (drop (Z.to_nat 0) abc_block)) /\
  scratch_of
    (world_of (roundClean
                 (world_of (process (two_objects abc_block) 0%nat 1%nat 0))
                 0%nat)) 1%nat
  = replicate 16 0.
Proof.
  apply (scratch_is_module_level (two_objects abc_block) 0%nat 1%nat
           (fresh 0%nat) 1%nat abc_block 0).
  - reflexivity.
  - reflexivity.
  - reflexivity.
  - lia.
  - vm_compute. discriminate.
Defined.

(** ** The round constants and the sine *)

Section SineTable.

Local Open Scope R_scope.

Lemma INR_fact_SS n :
  INR (fact (S (S n)))
  = IZR ((Z.of_nat n + 1) * (Z.of_nat n + 2)) * INR (fact n).
Proof.
  rewrite !fact_simpl, !mult_INR, mult_IZR, !plus_IZR, <- !INR_IZR_INZ.
  rewrite !S_INR. ring.
Qed.

Lemma pow_m1_IZR n : (-1) ^ n = IZR ((-1) ^ Z.of_nat n).
Proof. apply pow_IZR. Qed.

Lemma sin1_sum_sound n :
  let '(num, den) := Sine.sin1_sum n in
  IZR den = INR (fact (2 * n + 1)) /\ sin_approx 1 n = IZR num / IZR den.
Proof.
  induction n as [| n IH].
  - cbn [Sine.sin1_sum]. split.
    + reflexivity.
    + unfold sin_approx, sin_term. cbn. field.
  - cbn [Sine.sin1_sum]. destruct (Sine.sin1_sum n) as [num den].
    destruct IH as [Hden Hsum].
    assert (Hpos : 0 < IZR den) by (rewrite Hden; apply INR_fact_lt_0).
    replace (2 * S n + 1)%nat with (S (S (2 * n + 1))) by lia.
    assert (Hf : IZR ((2 * Z.of_nat n + 2) * (2 * Z.of_nat n + 3))
                 = IZR ((Z.of_nat (2 * n + 1) + 1) * (Z.of_nat (2 * n + 1) + 2)))
      by (f_equal; lia).
    assert (Hfpos : 0 < IZR ((2 * Z.of_nat n + 2) * (2 * Z.of_nat n + 3)))
      by (apply IZR_lt; lia).
    split.
    + rewrite INR_fact_SS, mult_IZR, Hden, <- Hf. ring.
    + unfold sin_approx in *. rewrite tech5, Hsum.
      unfold sin_term.
      replace (2 * S n + 1)%nat with (S (S (2 * n + 1))) by lia.
      rewrite pow1, INR_fact_SS, <- Hf, <- Hden, pow_m1_IZR.
      rewrite plus_IZR, !mult_IZR.
      replace (Z.of_nat (S n)) with (Z.of_nat n + 1)%Z by lia.
      field. repeat split; try lra; apply not_0_IZR; lia.
Qed.

Lemma cos1_sum_sound n :
  let '(num, den) := Sine.cos1_sum n in
  IZR den = INR (fact (2 * n)) /\ cos_approx 1 n = IZR num / IZR den.
Proof.
  induction n as [| n IH].
  - cbn [Sine.cos1_sum]. split.
    + reflexivity.
    + unfold cos_approx, cos_term. cbn. field.
  - cbn [Sine.cos1_sum]. destruct (Sine.cos1_sum n) as [num den].
    destruct IH as [Hden Hsum].
    assert (Hpos : 0 < IZR den) by (rewrite Hden; apply INR_fact_lt_0).
    replace (2 * S n)%nat with (S (S (2 * n))) by lia.
    assert (Hf : IZR ((2 * Z.of_nat n + 1) * (2 * Z.of_nat n + 2))
                 = IZR ((Z.of_nat (2 * n) + 1) * (Z.of_nat (2 * n) + 2)))
      by (f_equal; lia).
    assert (Hfpos : 0 < IZR ((2 * Z.of_nat n + 1) * (2 * Z.of_nat n + 2)))
      by (apply IZR_lt; lia).
    split.
    + rewrite INR_fact_SS, mult_IZR, Hden, <- Hf. ring.
    + unfold cos_approx in *. rewrite tech5, Hsum.
      unfold cos_term.
      replace (2 * S n)%nat with (S (S (2 * n))) by lia.
      rewrite pow1, INR_fact_SS, <- Hf, <- Hden, pow_m1_IZR.
      rewrite plus_IZR, !mult_IZR.
      replace (Z.of_nat (S n)) with (Z.of_nat n + 1)%Z by lia.
      field. repeat split; try lra; apply not_0_IZR; lia.
Qed.


Lemma scale_pos : 0 < IZR Sine.scale.
Proof. apply IZR_lt. reflexivity. Qed.

Lemma round_down_sound num den :
  0 < IZR den ->
  IZR (Sine.round_down (num, den)) <= IZR num / IZR den * IZR Sine.scale.
Proof.
  intros Hden. unfold Sine.round_down. cbn [fst snd].
  assert (Hz : (0 < den)%Z) by now apply lt_IZR.
  pose proof (Z.mul_div_le (num * Sine.scale) den Hz) as Hq.
  apply IZR_le in Hq. rewrite !mult_IZR in Hq.
  apply (Rmult_le_reg_l (IZR den)); [exact Hden |].
  replace (IZR den * (IZR num / IZR den * IZR Sine.scale))
    with (IZR num * IZR Sine.scale) by (field; lra).
  exact Hq.
Qed.

Lemma round_up_sound num den :
  0 < IZR den ->
  IZR num / IZR den * IZR Sine.scale <= IZR (Sine.round_up (num, den)).
Proof.
  intros Hden. unfold Sine.round_up. cbn [fst snd].
  assert (Hz : (0 < den)%Z) by now apply lt_IZR.
  pose proof (Z.mul_succ_div_gt (num * Sine.scale) den Hz) as Hq.
  unfold Z.succ in Hq. apply IZR_lt in Hq. rewrite !mult_IZR in Hq.
  apply (Rmult_le_reg_l (IZR den)); [exact Hden |].
  replace (IZR den * (IZR num / IZR den * IZR Sine.scale))
    with (IZR num * IZR Sine.scale) by (field; lra).
  lra.
Qed.

Lemma sin1_encloses : Sine.encloses Sine.sin1 (sin 1).
Proof.
  destruct (sin_bound 1 9) as [Hlo Hhi];
    [lra | pose proof PI2_1; lra |].
  change (2 * 9 + 1)%nat with 19%nat in Hlo.
  change (2 * (9 + 1))%nat with 20%nat in Hhi.
  pose proof (sin1_sum_sound 19) as H19. pose proof (sin1_sum_sound 20) as H20.
  unfold Sine.encloses, Sine.sin1. cbn [fst snd].
  destruct (Sine.sin1_sum 19) as [n19 d19], (Sine.sin1_sum 20) as [n20 d20].
  destruct H19 as [Hd19 Hs19], H20 as [Hd20 Hs20].
  assert (0 < IZR d19) by (rewrite Hd19; apply INR_fact_lt_0).
  assert (0 < IZR d20) by (rewrite Hd20; apply INR_fact_lt_0).
  pose proof scale_pos. split.
  - eapply Rle_trans; [now apply round_down_sound |].
    rewrite <- Hs19. now apply Rmult_le_compat_r; [lra |].
  - eapply Rle_trans; [| now apply round_up_sound].
    rewrite <- Hs20. now apply Rmult_le_compat_r; [lra |].
Qed.

Lemma cos1_encloses : Sine.encloses Sine.cos1 (cos 1).
Proof.
  destruct (cos_bound 1 9) as [Hlo Hhi];
    [pose proof PI2_1; lra | pose proof PI2_1; lra |].
  change (2 * 9 + 1)%nat with 19%nat in Hlo.
  change (2 * (9 + 1))%nat with 20%nat in Hhi.
  pose proof (cos1_sum_sound 19) as H19. pose proof (cos1_sum_sound 20) as H20.
  unfold Sine.encloses, Sine.cos1. cbn [fst snd].
  destruct (Sine.cos1_sum 19) as [n19 d19], (Sine.cos1_sum 20) as [n20 d20].
  destruct H19 as [Hd19 Hs19], H20 as [Hd20 Hs20].
  assert (0 < IZR d19) by (rewrite Hd19; apply INR_fact_lt_0).
  assert (0 < IZR d20) by (rewrite Hd20; apply INR_fact_lt_0).
  pose proof scale_pos. split.
  - eapply Rle_trans; [now apply round_down_sound |].
    rewrite <- Hs19. now apply Rmult_le_compat_r; [lra |].
  - eapply Rle_trans; [| now apply round_up_sound].
    rewrite <- Hs20. now apply Rmult_le_compat_r; [lra |].
Qed.

Lemma floor_scale a : IZR (a / Sine.scale) * IZR Sine.scale <= IZR a.
Proof.
  rewrite <- mult_IZR. apply IZR_le. rewrite Z.mul_comm.
  apply Z.mul_div_le. reflexivity.
Qed.

Lemma ceil_scale a : IZR a <= IZR (a / Sine.scale + 1) * IZR Sine.scale.
Proof.
  rewrite <- mult_IZR. apply IZR_le. rewrite Z.mul_comm.
  pose proof (Z.mul_succ_div_gt a Sine.scale ltac:(reflexivity)). lia.
Qed.

(** A lower bound of a product from a lower bound of the first factor and
    an enclosure of the second, which is not negative. *)
Lemma mul_lo_sound xl y X Y :
  (0 <= fst y)%Z ->
  IZR xl <= X * IZR Sine.scale ->
  Sine.encloses y Y ->
  IZR (Sine.mul_lo xl y) <= X * Y * IZR Sine.scale.
Proof.
  intros Hy Hx [Hyl Hyh]. pose proof scale_pos as HP.
  apply IZR_le in Hy. unfold Sine.mul_lo.
  apply (Rmult_le_reg_r (IZR Sine.scale)); [exact HP |].
  eapply Rle_trans; [apply floor_scale |].
  set (P := IZR Sine.scale) in *. set (yP := Y * P) in *. set (xP := X * P) in *.
  replace (X * Y * P * P) with (xP * yP) by (unfold xP, yP; ring).
  destruct (Z.leb_spec 0 xl) as [H0 | H0].
  - apply IZR_le in H0. rewrite mult_IZR. apply Rmult_le_compat; lra.
  - apply IZR_lt in H0. rewrite mult_IZR.
    apply Rle_trans with (IZR xl * yP).
    + apply Rmult_le_compat_neg_l; lra.
    + apply Rmult_le_compat_r; lra.
Qed.

Lemma mul_hi_sound xh y X Y :
  (0 <= fst y)%Z ->
  X * IZR Sine.scale <= IZR xh ->
  Sine.encloses y Y ->
  X * Y * IZR Sine.scale <= IZR (Sine.mul_hi xh y).
Proof.
  intros Hy Hx [Hyl Hyh]. pose proof scale_pos as HP.
  apply IZR_le in Hy. unfold Sine.mul_hi.
  apply (Rmult_le_reg_r (IZR Sine.scale)); [exact HP |].
  eapply Rle_trans; [| apply ceil_scale].
  set (P := IZR Sine.scale) in *. set (yP := Y * P) in *. set (xP := X * P) in *.
  replace (X * Y * P * P) with (xP * yP) by (unfold xP, yP; ring).
  destruct (Z.leb_spec 0 xh) as [H0 | H0].
  - apply IZR_le in H0. rewrite mult_IZR.
    apply Rle_trans with (IZR xh * yP).
    + apply Rmult_le_compat_r; lra.
    + apply Rmult_le_compat_l; lra.
  - apply IZR_lt in H0. rewrite mult_IZR.
    apply Rle_trans with (IZR xh * yP).
    + apply Rmult_le_compat_r; lra.
    + apply Rmult_le_compat_neg_l; lra.
Qed.

Lemma next_sound s1 c1 sc S1 C1 Sn Cn :
  (0 <= fst s1)%Z -> (0 <= fst c1)%Z ->
  Sine.encloses s1 S1 -> Sine.encloses c1 C1 ->
  Sine.encloses (fst sc) Sn -> Sine.encloses (snd sc) Cn ->
  Sine.encloses (fst (Sine.next s1 c1 sc)) (Sn * C1 + Cn * S1) /\
  Sine.encloses (snd (Sine.next s1 c1 sc)) (Cn * C1 - Sn * S1).
Proof.
  intros Hs0 Hc0 Hs1 Hc1 Hs Hc.
  destruct sc as [[sl sh] [cl ch]]. cbn [fst snd] in Hs, Hc.
  destruct Hs as [Hsl Hsh], Hc as [Hcl Hch]. cbn [fst snd] in *.
  pose proof (mul_lo_sound sl c1 Sn C1 Hc0 Hsl Hc1).
  pose proof (mul_lo_sound cl s1 Cn S1 Hs0 Hcl Hs1).
  pose proof (mul_hi_sound sh c1 Sn C1 Hc0 Hsh Hc1).
  pose proof (mul_hi_sound ch s1 Cn S1 Hs0 Hch Hs1).
  pose proof (mul_lo_sound cl c1 Cn C1 Hc0 Hcl Hc1).
  pose proof (mul_hi_sound sh s1 Sn S1 Hs0 Hsh Hs1).
  pose proof (mul_hi_sound ch c1 Cn C1 Hc0 Hch Hc1).
  pose proof (mul_lo_sound sl s1 Sn S1 Hs0 Hsl Hs1).
  unfold Sine.next, Sine.encloses. cbn [fst snd].
  rewrite !plus_IZR, !minus_IZR. repeat split; lra.
Qed.

Lemma sincos_sound n :
  Sine.encloses (fst (Sine.sincos Sine.sin1 Sine.cos1 n)) (sin (INR (S n))) /\
  Sine.encloses (snd (Sine.sincos Sine.sin1 Sine.cos1 n)) (cos (INR (S n))).
Proof.
  induction n as [| n [IHs IHc]].
  - cbn [Sine.sincos fst snd]. change (INR 1) with 1.
    split; [apply sin1_encloses | apply cos1_encloses].
  - cbn [Sine.sincos]. rewrite (S_INR (S n)), sin_plus, cos_plus.
    apply next_sound; try assumption.
    + vm_compute. discriminate.
    + vm_compute. discriminate.
    + apply sin1_encloses.
    + apply cos1_encloses.
Qed.

Lemma entry_ok_sound k iv x :
  Sine.entry_ok k iv = true ->
  Sine.encloses iv x ->
  IZR k <= 2 ^ 32 * Rabs x < IZR k + 1.
Proof.
  intros Hok [Hl Hh]. destruct iv as [l h]. cbn [fst snd] in *.
  pose proof scale_pos as HP. unfold Sine.entry_ok in Hok.
  assert (H32 : IZR (2 ^ 32) = 2 ^ 32) by (rewrite (pow_IZR 2 32); reflexivity).
  set (P := IZR Sine.scale) in *.
  destruct (Z.leb_spec 0 l) as [H0 | H0].
  - apply andb_true_iff in Hok as [Hk1 Hk2].
    apply Z.leb_le, IZR_le in Hk1. apply Z.ltb_lt, IZR_lt in Hk2.
    rewrite !mult_IZR in Hk1, Hk2. rewrite plus_IZR in Hk2.
    rewrite H32 in Hk1, Hk2. fold P in Hk1, Hk2.
    apply IZR_le in H0.
    assert (Hx : 0 <= x) by (apply (Rmult_le_reg_r P); [exact HP | lra]).
    rewrite Rabs_pos_eq by exact Hx.
    assert (Hp32 : 0 < 2 ^ 32) by (apply pow_lt; lra).
    split.
    + apply (Rmult_le_reg_r P); [exact HP |].
      apply Rle_trans with (2 ^ 32 * IZR l); [exact Hk1 |].
      rewrite Rmult_assoc. apply Rmult_le_compat_l; lra.
    + apply (Rmult_lt_reg_r P); [exact HP |].
      apply Rle_lt_trans with (2 ^ 32 * IZR h); [| exact Hk2].
      rewrite Rmult_assoc. apply Rmult_le_compat_l; lra.
  - destruct (Z.leb_spec h 0) as [H1 | H1]; [| discriminate].
    apply andb_true_iff in Hok as [Hk1 Hk2].
    apply Z.leb_le, IZR_le in Hk1. apply Z.ltb_lt, IZR_lt in Hk2.
    rewrite !mult_IZR, !opp_IZR in Hk1, Hk2. rewrite plus_IZR in Hk2.
    rewrite H32 in Hk1, Hk2. fold P in Hk1, Hk2. apply IZR_le in H1.
    assert (Hx : x <= 0) by (apply (Rmult_le_reg_r P); [exact HP | lra]).
    rewrite Rabs_left1 by exact Hx.
    assert (Hp32 : 0 < 2 ^ 32) by (apply pow_lt; lra).
    split.
    + apply (Rmult_le_reg_r P); [exact HP |].
      apply Rle_trans with (2 ^ 32 * - IZR h); [exact Hk1 |].
      rewrite Rmult_assoc. apply Rmult_le_compat_l; lra.
    + apply (Rmult_lt_reg_r P); [exact HP |].
      apply Rle_lt_trans with (2 ^ 32 * - IZR l); [| exact Hk2].
      rewrite Rmult_assoc. apply Rmult_le_compat_l; lra.
Qed.

Lemma check_from_sound s1 c1 K :
  forall n,
    Sine.check_from s1 c1 (Sine.sincos s1 c1 n) K = true ->
    forall i, (i < length K)%nat ->
      Sine.entry_ok (nth i K 0%Z) (fst (Sine.sincos s1 c1 (n + i))) = true.
Proof.
  induction K as [| k K IH]; intros n Hck i Hi; [cbn in Hi; lia |].
  cbn [Sine.check_from] in Hck. apply andb_true_iff in Hck as [Hk HK].
  destruct i as [| i].
  - cbn [nth]. now rewrite Nat.add_0_r.
  - cbn [nth]. replace (n + S i)%nat with (S n + i)%nat by lia.
    apply IH; [exact HK | cbn in Hi; lia].
Qed.


Lemma table_ok_sound K i :
  Sine.table_ok K = true ->
  (i < length K)%nat ->
  IZR (nth i K 0%Z) <= 2 ^ 32 * Rabs (sin (INR (i + 1))) < IZR (nth i K 0%Z) + 1.
Proof.
  intros Hok Hi.
  pose proof (check_from_sound Sine.sin1 Sine.cos1 K 0 Hok i Hi) as Hi_ok.
  cbn [Nat.add] in Hi_ok.
  destruct (sincos_sound i) as [Hs _].
  replace (i + 1)%nat with (S i) by lia.
  exact (entry_ok_sound _ _ _ Hi_ok Hs).
Qed.

Lemma table_ok_MD5_K : Sine.table_ok MD5_K = true.
Proof. vm_compute. reflexivity. Qed.

Lemma MD5_K_entry i :
  (i < 64)%nat ->
  nth i MD5_K 0%Z = Int_part (2 ^ 32 * Rabs (sin (INR (i + 1)))).
Proof.
  intros Hi.
  pose proof (table_ok_sound MD5_K i table_ok_MD5_K Hi) as [Hlo Hhi].
  apply Int_part_spec. lra.
Qed.

(** C3: the table holds 64 numbers, each an unsigned 32-bit value, and its
    entry of index i is the integer part of 2^32 |sin (i + 1)|, the angle in
    radians.  The table is a constant of the module: no method has it among
    the things it writes. *)
Theorem MD5_K_is_sine_table :
  length MD5_K = 64%nat /\
  Forall (fun k => (0 <= k < 2 ^ 32)%Z) MD5_K /\
  MD5_K = map (fun i => Int_part (2 ^ 32 * Rabs (sin (INR (i + 1))))) (seq 0 64).
Proof.
  split; [reflexivity |]. split.
  - apply Forall_forall. intros k Hk.
    assert (Hb : forallb (fun k => (0 <=? k) && (k <? 2 ^ 32))%Z MD5_K = true)
      by (vm_compute; reflexivity).
    rewrite forallb_forall in Hb. specialize (Hb k).
    rewrite <- list_elem_of_In in Hb. specialize (Hb Hk).
    apply andb_true_iff in Hb as [H1 H2]. lia.
  - set (f := fun i => Int_part (2 ^ 32 * Rabs (sin (INR (i + 1))))).
    apply (nth_ext _ _ 0%Z (f 64%nat)).
    + now rewrite length_map, length_seq.
    + intros i Hi. change (length MD5_K) with 64%nat in Hi.
      rewrite (map_nth f (seq 0 64) 64%nat i), seq_nth by exact Hi.
      cbn [Nat.add]. now apply MD5_K_entry.
Qed.

End SineTable.

(** ** The digest of whole messages *)

(** C2: the digest pipeline (padding, compression block by block,
    little-endian serialisation of A, B, C, D) yields the three standard MD5
    known-answer vectors. *)
Theorem md5_known_answers :
  md5_hex "" = Some "d41d8cd98f00b204e9800998ecf8427e"%string /\
  md5_hex "abc" = Some "900150983cd24fb0d6963f7d28e17f72"%string /\
  md5_hex "The quick brown fox jumps over the lazy dog"
  = Some "9e107d9d372bb6826bd81d3542a419d6"%string.
Proof. repeat split; vm_compute; reflexivity. Qed.

(** ** Chains of blocks *)

Lemma schedule_length block : length (Spec.schedule block) = 16%nat.
Proof. unfold Spec.schedule. now rewrite length_fmap, length_seq. Qed.

(** What [process] does on a block inside the view, in one equation. *)
Lemma process_explicit w this o view bs offset :
  wf_world w ->
  heap w !! this = Some o ->
  mem w !! view = Some bs ->
  0 <= offset -> offset + 64 <= Z.of_nat (length bs) ->
  process w this view offset
  = Normal {| MD5_W := Spec.schedule (take 64 (drop (Z.to_nat offset) bs));
              mem := mem w;
              heap := <[this := compress_object o
                                  (take 64 (drop (Z.to_nat offset) bs))]>
                        (heap w) |} tt.
Proof.
  intros Hwf Ho Hbs H0 H64. unfold compress_object.
  destruct (rounds 64 (Spec.schedule (take 64 (drop (Z.to_nat offset) bs))) 0
              (words o)) as [[[a b] c] d] eqn:Hr.
  now apply (process_in_range w this o view bs offset a b c d).
Qed.

(** The stored object read as unsigned words is the compression function
    of the specification on the old words. *)
Lemma compress_object_words o block :
  map4 JS.to_uint32 (words (compress_object o block))
  = Spec.compress (map4 JS.to_uint32 (words o)) block.
Proof.
  pose proof (rounds_sim (Spec.schedule block) 64 0 (words o)
                ltac:(lia) ltac:(lia)) as Hsim.
  change (Z.of_nat 64) with 64 in Hsim.
  unfold compress_object, Spec.compress.
  destruct (rounds 64 (Spec.schedule block) 0 (words o)) as [[[a b] c] d].
  rewrite <- Hsim. unfold words. cbn [set_fields A B C D map4].
  rewrite !feed_forward, !or_0_r, !to_int32_idem, !to_uint32_to_int32.
  unfold JS.to_uint32. rewrite !Zmod_mod. reflexivity.
Qed.

Lemma compress_object_fields o block :
  (blockLen (compress_object o block), outputLen (compress_object o block),
   padOffset (compress_object o block), isLE (compress_object o block),
   buffer (compress_object o block))
  = (blockLen o, outputLen o, padOffset o, isLE o, buffer o).
Proof.
  unfold compress_object.
  now destruct (rounds 64 (Spec.schedule block) 0 (words o)) as [[[a b] c] d].
Qed.

Lemma fold_left_step {X Y} (f : X -> Y -> X) (y : Y) (l : list Y) (x : X) :
  fold_left f (y :: l) x = fold_left f l (f x y).
Proof. reflexivity. Qed.

Lemma run_cons w c cs : run w (c :: cs) = run (run_call w c) cs.
Proof. reflexivity. Qed.

Lemma process_calls_S this view k n :
  process_calls this view k (S n)
  = CallProcess this view (64 * Z.of_nat k) :: process_calls this view (S k) n.
Proof. reflexivity. Qed.

Lemma blocks_S bs k n :
  blocks bs k (S n) = take 64 (drop (64 * k) bs) :: blocks bs (S k) n.
Proof. reflexivity. Qed.

Lemma process_chain_from this view bs n :
  forall k w o,
    wf_world w ->
    heap w !! this = Some o ->
    mem w !! view = Some bs ->
    (64 * (k + n) <= length bs)%nat ->
    exists o',
      heap (run w (process_calls this view k n)) !! this = Some o' /\
      map4 JS.to_uint32 (words o')
      = fold_left Spec.compress (blocks bs k n) (map4 JS.to_uint32 (words o)) /\
      mem (run w (process_calls this view k n)) = mem w /\
      forall q, q <> this ->
        heap (run w (process_calls this view k n)) !! q = heap w !! q.
Proof.
  induction n as [| n IH]; intros k w o Hwf Ho Hbs Hlen.
  - exists o. split; [exact Ho |]. split; [reflexivity |].
    split; [reflexivity |]. intros q _. reflexivity.
  - rewrite process_calls_S, blocks_S, run_cons.
    change (run_call w (CallProcess this view (64 * Z.of_nat k)))
      with (world_of (process w this view (64 * Z.of_nat k))).
    rewrite (process_explicit w this o view bs (64 * Z.of_nat k) Hwf Ho Hbs)
      by lia.
    replace (Z.to_nat (64 * Z.of_nat k)) with (64 * k)%nat by lia.
    unfold world_of.
    set (o1 := compress_object o (take 64 (drop (64 * k) bs))).
    set (w1 := {| MD5_W := _; mem := mem w; heap := _ |}).
    destruct (IH (S k) w1 o1) as (o' & Ho' & Hw' & Hm' & Hq').
    + apply schedule_length.
    + apply lookup_insert_eq.
    + exact Hbs.
    + lia.
    + exists o'. split; [exact Ho' |]. split.
      * rewrite Hw', fold_left_step.
        unfold o1. rewrite compress_object_words. reflexivity.
      * split; [exact Hm' |]. intros q Hq. rewrite (Hq' q Hq).
        apply lookup_insert_ne. congruence.
Qed.

(** X1: [process] called on the consecutive 64-byte blocks of a view
    threads the state through them: the words it ends with are the
    compression function folded over the blocks in order, and the bytes and
    the other objects are as before. *)
Theorem process_chain w this o view bs n :
  wf_world w ->
  heap w !! this = Some o ->
  mem w !! view = Some bs ->
  (64 * n <= length bs)%nat ->
  exists o',
    heap (run w (process_calls this view 0 n)) !! this = Some o' /\
    map4 JS.to_uint32 (words o')
    = fold_left Spec.compress (blocks bs 0 n) (map4 JS.to_uint32 (words o)) /\
    mem (run w (process_calls this view 0 n)) = mem w /\
    forall q, q <> this ->
      heap (run w (process_calls this view 0 n)) !! q = heap w !! q.
Proof.
  intros Hwf Ho Hbs Hlen.
  now apply (process_chain_from this view bs n 0 w o).
Qed.

Lemma process_chain_witness :
  exists o',
    heap (run (one_object (abc_block ++ abc_block))
            (process_calls 0%nat 1%nat 0 2)) !! 0%nat = Some o' /\
    map4 JS.to_uint32 (words o')
    = fold_left Spec.compress (blocks (abc_block ++ abc_block) 0 2)
        (map4 JS.to_uint32 (words (fresh 0%nat))) /\
    mem (run (one_object (abc_block ++ abc_block))
           (process_calls 0%nat 1%nat 0 2))
    = mem (one_object (abc_block ++ abc_block)) /\
    forall q, q <> 0%nat ->
      heap (run (one_object (abc_block ++ abc_block))
              (process_calls 0%nat 1%nat 0 2)) !! q
      = heap (one_object (abc_block ++ abc_block)) !! q.
Proof.
  apply (process_chain (one_object (abc_block ++ abc_block)) 0%nat
           (fresh 0%nat) 1%nat (abc_block ++ abc_block) 2).
  - reflexivity.
  - reflexivity.
  - reflexivity.
  - vm_compute. lia.
Defined.

(** ** The state words stay signed 32-bit integers *)

Lemma set_fields_int32 o a b c d :
  Forall int32 [A (set_fields o a b c d); B (set_fields o a b c d);
                C (set_fields o a b c d); D (set_fields o a b c d)].
Proof.
  cbn [set_fields A B C D]. rewrite !or_0_r.
  repeat constructor; apply to_int32_range.
Qed.

Lemma set_keeps_int32 w this a b c d :
  heap_int32 w -> heap_int32 (world_of (set w this a b c d)).
Proof.
  intros Hw. unfold set. destruct (heap w !! this) as [o |]; [| exact Hw].
  cbn [world_of]. intros r o' Hr. cbn [with_heap heap] in Hr.
  destruct (decide (this = r)) as [-> | Hne].
  - rewrite lookup_insert_eq in Hr. injection Hr as <-.
    apply set_fields_int32.
  - rewrite lookup_insert_ne in Hr by exact Hne. exact (Hw r o' Hr).
Qed.

Lemma process_keeps_int32 w this view offset :
  heap_int32 w -> heap_int32 (world_of (process w this view offset)).
Proof.
  intros Hw. unfold process. destruct (heap w !! this) as [o |]; [| exact Hw].
  destruct (load_W 16 0 offset (mem w) view (MD5_W w)) as [W [e |]];
    [exact Hw |].
  destruct (rounds 64 W 0 (A o, B o, C o, D o)) as [[[a b] c] d].
  apply set_keeps_int32. exact Hw.
Qed.

Lemma destroy_keeps_int32 w this :
  heap_int32 w -> heap_int32 (world_of (destroy w this)).
Proof.
  intros Hw. unfold destroy.
  pose proof (set_keeps_int32 w this 0 0 0 0 Hw) as Hs.
  destruct (set w this 0 0 0 0) as [w1 [] | w1 e]; cbn [world_of] in Hs |- *;
    [| exact Hs].
  destruct (heap w1 !! this) as [o1 |]; cbn [world_of]; [| exact Hs].
  destruct (mem w1 !! buffer o1); cbn [world_of]; exact Hs.
Qed.

Lemma run_call_keeps_int32 w c : heap_int32 w -> heap_int32 (run_call w c).
Proof.
  intros Hw. destruct c as [t | t a b c d | t v off | t | t]; cbn [run_call].
  - unfold get. now destruct (heap w !! t).
  - now apply set_keeps_int32.
  - now apply process_keeps_int32.
  - unfold roundClean. now destruct (heap w !! t).
  - now apply destroy_keeps_int32.
Qed.

Lemma new_MD5_keeps_int32 w r b : heap_int32 w -> heap_int32 (new_MD5 w r b).
Proof.
  intros Hw q o Hq. cbn [new_MD5 heap] in Hq.
  destruct (decide (r = q)) as [-> | Hne].
  - rewrite lookup_insert_eq in Hq. injection Hq as <-.
    cbn [fresh A B C D]. rewrite !or_0_r.
    repeat constructor; apply to_int32_range.
  - rewrite lookup_insert_ne in Hq by exact Hne. exact (Hw q o Hq).
Qed.

Lemma init_world_int32 : heap_int32 init_world.
Proof.
  intros r o Hr. cbn [init_world heap] in Hr. now rewrite lookup_empty in Hr.
Qed.

Lemma with_mem_keeps_int32 w m : heap_int32 w -> heap_int32 (with_mem w m).
Proof. intros Hw. exact Hw. Qed.

Lemma two_objects_int32 data : heap_int32 (two_objects data).
Proof.
  unfold two_objects, one_object.
  apply new_MD5_keeps_int32, with_mem_keeps_int32, new_MD5_keeps_int32.
  apply init_world_int32.
Qed.

(** X2: the state words of every object are signed 32-bit integers from
    construction on: the constructor stores them so, and no run of method
    calls, returning or throwing, takes a word out of [-2^31, 2^31). *)
Theorem state_words_stay_int32 w r b cs :
  heap_int32 w -> heap_int32 (run (new_MD5 w r b) cs).
Proof.
  intros Hw. apply (new_MD5_keeps_int32 w r b) in Hw.
  revert Hw. generalize (new_MD5 w r b). clear w.
  induction cs as [| c cs IH]; intros w Hw; [exact Hw |].
  rewrite run_cons. apply IH. now apply run_call_keeps_int32.
Qed.

Lemma state_words_stay_int32_witness :
  heap_int32
    (run (new_MD5 (with_mem init_world {[1%nat := abc_block]}) 0%nat 0%nat)
       [CallProcess 0%nat 1%nat 0; CallSet 0%nat (2 ^ 40) (- 7) 0 1;
        CallDestroy 0%nat]).
Proof.
  apply (state_words_stay_int32
           (with_mem init_world {[1%nat := abc_block]}) 0%nat 0%nat).
  intros r o Hr. cbn [with_mem init_world heap] in Hr.
  rewrite lookup_empty in Hr. discriminate.
Defined.

(** ** Saving and restoring the state *)

Lemma set_fields_words_id o :
  Forall int32 [A o; B o; C o; D o] ->
  set_fields o (A o) (B o) (C o) (D o) = o.
Proof.
  intros Ho. rewrite !Forall_cons in Ho. destruct Ho as (Ha & Hb & Hc & Hd & _).
  destruct o as [a b c d bl ol po le bu]. cbn [A B C D] in *.
  unfold set_fields. cbn [A B C D blockLen outputLen padOffset isLE buffer].
  rewrite !or_0_r, !to_int32_small by assumption. reflexivity.
Qed.

(** X3: [get] and [set] save and restore: handing the tuple [get] returns
    back to [set] on the same object leaves the world exactly as it was,
    and handing it to [set] on another object gives that object the same
    four words and touches nothing else of it. *)
Theorem set_of_get w p q op oq :
  heap_int32 w ->
  heap w !! p = Some op ->
  heap w !! q = Some oq ->
  get w p = Normal w (A op, B op, C op, D op) /\
  set w p (A op) (B op) (C op) (D op) = Normal w tt /\
  exists w' oq',
    set w q (A op) (B op) (C op) (D op) = Normal w' tt /\
    heap w' = <[q := oq']> (heap w) /\
    words oq' = words op /\
    (blockLen oq', outputLen oq', padOffset oq', isLE oq', buffer oq')
    = (blockLen oq, outputLen oq, padOffset oq, isLE oq, buffer oq) /\
    MD5_W w' = MD5_W w /\ mem w' = mem w.
Proof.
  intros Hw Hp Hq. pose proof (Hw p op Hp) as Hop.
  split; [exact (get_returns_state w p op Hp) |]. split.
  - rewrite (set_replaces_state w p op) by exact Hp.
    rewrite set_fields_words_id by exact Hop.
    rewrite insert_id by exact Hp. now destruct w.
  - eexists _, _. split; [exact (set_replaces_state w q oq _ _ _ _ Hq) |].
    split; [reflexivity |]. split.
    + rewrite words_set_fields. unfold words.
      rewrite !Forall_cons in Hop. destruct Hop as (Ha & Hb & Hc & Hd & _).
      now rewrite !to_int32_small by assumption.
    + repeat split.
Qed.

Lemma set_of_get_witness :
  get (two_objects []) 0%nat
  = Normal (two_objects [])
      (A (fresh 0%nat), B (fresh 0%nat), C (fresh 0%nat), D (fresh 0%nat)) /\
  set (two_objects []) 0%nat (A (fresh 0%nat)) (B (fresh 0%nat))
    (C (fresh 0%nat)) (D (fresh 0%nat)) = Normal (two_objects []) tt /\
  exists w' oq',
    set (two_objects []) 1%nat (A (fresh 0%nat)) (B (fresh 0%nat))
      (C (fresh 0%nat)) (D (fresh 0%nat)) = Normal w' tt /\
    heap w' = <[1%nat := oq']> (heap (two_objects [])) /\
    words oq' = words (fresh 0%nat) /\
    (blockLen oq', outputLen oq', padOffset oq', isLE oq', buffer oq')
    = (blockLen (fresh 2%nat), outputLen (fresh 2%nat),
       padOffset (fresh 2%nat), isLE (fresh 2%nat), buffer (fresh 2%nat)) /\
    MD5_W w' = MD5_W (two_objects []) /\ mem w' = mem (two_objects []).
Proof.
  apply (set_of_get (two_objects []) 0%nat 1%nat (fresh 0%nat) (fresh 2%nat)).
  - apply two_objects_int32.
  - reflexivity.
  - reflexivity.
Defined.

(** ** Two digests at once *)

(** X4: two objects share the scratch array and still do not disturb each
    other: a block processed on [p] and a block processed on [q] leave the
    same objects whichever goes first, and [p] ends with the words it would
    have had if [q] had never run. *)
Theorem process_interleave w p q op oq vp vq bp bq offp offq :
  p <> q ->
  wf_world w ->
  heap w !! p = Some op -> heap w !! q = Some oq ->
  mem w !! vp = Some bp -> mem w !! vq = Some bq ->
  0 <= offp -> offp + 64 <= Z.of_nat (length bp) ->
  0 <= offq -> offq + 64 <= Z.of_nat (length bq) ->
  heap (run w [CallProcess p vp offp; CallProcess q vq offq])
  = heap (run w [CallProcess q vq offq; CallProcess p vp offp]) /\
  heap (run w [CallProcess p vp offp; CallProcess q vq offq]) !! p
  = heap (run w [CallProcess p vp offp]) !! p /\
  heap (run w [CallProcess p vp offp; CallProcess q vq offq]) !! q
  = heap (run w [CallProcess q vq offq]) !! q.
Proof.
  intros Hpq Hwf Hp Hq Hvp Hvq Hp0 Hp64 Hq0 Hq64.
  rewrite !run_cons. unfold run. cbn [fold_left run_call].
  rewrite (process_explicit w p op vp bp offp Hwf Hp Hvp Hp0 Hp64).
  rewrite (process_explicit w q oq vq bq offq Hwf Hq Hvq Hq0 Hq64).
  cbn [world_of].
  rewrite (process_explicit _ q oq vq bq offq);
    [| apply schedule_length
     | cbn [heap]; rewrite lookup_insert_ne by exact Hpq; exact Hq
     | exact Hvq | exact Hq0 | exact Hq64 ].
  rewrite (process_explicit _ p op vp bp offp);
    [| apply schedule_length
     | cbn [heap]; rewrite lookup_insert_ne by congruence; exact Hp
     | exact Hvp | exact Hp0 | exact Hp64 ].
  cbn [world_of heap]. split; [| split].
  - apply insert_insert_ne. congruence.
  - rewrite lookup_insert_ne by congruence. reflexivity.
  - rewrite lookup_insert_eq, lookup_insert_eq. reflexivity.
Qed.

Lemma process_interleave_witness :
  heap (run (two_objects abc_block)
          [CallProcess 0%nat 1%nat 0; CallProcess 1%nat 1%nat 0])
  = heap (run (two_objects abc_block)
            [CallProcess 1%nat 1%nat 0; CallProcess 0%nat 1%nat 0]) /\
  heap (run (two_objects abc_block)
          [CallProcess 0%nat 1%nat 0; CallProcess 1%nat 1%nat 0]) !! 0%nat
  = heap (run (two_objects abc_block) [CallProcess 0%nat 1%nat 0]) !! 0%nat /\
  heap (run (two_objects abc_block)
          [CallProcess 0%nat 1%nat 0; CallProcess 1%nat 1%nat 0]) !! 1%nat
  = heap (run (two_objects abc_block) [CallProcess 1%nat 1%nat 0]) !! 1%nat.
Proof.
  apply (process_interleave (two_objects abc_block) 0%nat 1%nat
           (fresh 0%nat) (fresh 2%nat) 1%nat 1%nat abc_block abc_block 0 0).
  - discriminate.
  - reflexivity.
  - reflexivity.
  - reflexivity.
  - reflexivity.
  - reflexivity.
  - lia.
  - vm_compute. discriminate.
  - lia.
  - vm_compute. discriminate.
Defined.

(** ** Only the sixty-four bytes count *)

(** X5: [process] reads nothing but the 64 bytes from [offset] on: on two
    views, at two offsets, that hold the same 64 bytes there, it leaves the
    same world, the scratch array included. *)
Theorem process_block_locality w this o v1 v2 b1 b2 off1 off2 :
  wf_world w ->
  heap w !! this = Some o ->
  mem w !! v1 = Some b1 -> mem w !! v2 = Some b2 ->
  0 <= off1 -> off1 + 64 <= Z.of_nat (length b1) ->
  0 <= off2 -> off2 + 64 <= Z.of_nat (length b2) ->
  take 64 (drop (Z.to_nat off1) b1) = take 64 (drop (Z.to_nat off2) b2) ->
  process w this v1 off1 = process w this v2 off2.
Proof.
  intros Hwf Ho H1 H2 H10 H164 H20 H264 Heq.
  rewrite (process_explicit w this o v1 b1 off1 Hwf Ho H1 H10 H164).
  rewrite (process_explicit w this o v2 b2 off2 Hwf Ho H2 H20 H264).
  now rewrite Heq.
Qed.

Lemma process_block_locality_witness :
  process (with_mem (one_object abc_block)
             (<[2%nat := x00 :: x01 :: abc_block ++ [xff]]>
                (mem (one_object abc_block)))) 0%nat 1%nat 0
  = process (with_mem (one_object abc_block)
               (<[2%nat := x00 :: x01 :: abc_block ++ [xff]]>
                  (mem (one_object abc_block)))) 0%nat 2%nat 2.
Proof.
  apply (process_block_locality _ 0%nat (fresh 0%nat) 1%nat 2%nat abc_block
           (x00 :: x01 :: abc_block ++ [xff]) 0 2).
  - reflexivity.
  - reflexivity.
  - reflexivity.
  - reflexivity.
  - lia.
  - vm_compute. discriminate.
  - lia.
  - vm_compute. discriminate.
  - vm_compute. reflexivity.
Defined.

(** ** After [destroy] *)

(** X6: [destroy] does not disable the object: a later [process] on a
    well-formed block of any view, the object's own buffer included, returns
    normally and hashes from the all-zero state; the block is the one the
    view holds after [destroy], which is all zero bytes when the view is
    the object's own buffer. *)
Theorem process_after_destroy w this o buf view bs offset :
  wf_world w ->
  heap w !! this = Some o ->
  mem w !! buffer o = Some buf ->
  mem w !! view = Some bs ->
  0 <= offset -> offset + 64 <= Z.of_nat (length bs) ->
  exists w1 w2 o2,
    destroy w this = Normal w1 tt /\
    mem w1 !! view
    = Some (if decide (view = buffer o) then replicate (length bs) x00
            else bs) /\
    process w1 this view offset = Normal w2 tt /\
    heap w2 !! this = Some o2 /\
    map4 JS.to_uint32 (words o2)
    = Spec.compress (0, 0, 0, 0)
        (take 64
           (drop (Z.to_nat offset)
              (if decide (view = buffer o) then replicate (length bs) x00
               else bs))).
Proof.
  intros Hwf Ho Hbuf Hbs H0 H64.
  unfold destroy. rewrite (set_replaces_state w this o) by exact Ho.
  cbn [with_heap heap mem]. rewrite lookup_insert_eq.
  cbn [set_fields buffer]. rewrite Hbuf.
  set (bs' := if decide (view = buffer o) then replicate (length bs) x00
              else bs).
  assert (Hlen : length bs' = length bs).
  { subst bs'. destruct (decide (view = buffer o));
      [apply length_replicate | reflexivity]. }
  assert (Hview : <[buffer o := replicate (length buf) x00]> (mem w) !! view
                  = Some bs').
  { subst bs'. destruct (decide (view = buffer o)) as [-> | Hne].
    - rewrite lookup_insert_eq. rewrite Hbuf in Hbs. now injection Hbs as ->.
    - rewrite lookup_insert_ne by congruence. exact Hbs. }
  eexists _, _, _. split; [reflexivity |].
  cbn [with_mem mem]. split; [exact Hview |].
  split.
  - apply (process_explicit _ this (set_fields o 0 0 0 0) view bs' offset).
    + exact Hwf.
    + cbn [with_mem heap]. apply lookup_insert_eq.
    + exact Hview.
    + exact H0.
    + rewrite Hlen. exact H64.
  - cbn [heap]. split; [apply lookup_insert_eq |].
    rewrite compress_object_words. reflexivity.
Qed.

Lemma process_after_destroy_witness :
  exists w1 w2 o2,
    destroy (with_mem (one_object []) {[0%nat := abc_block]}) 0%nat
    = Normal w1 tt /\
    mem w1 !! 0%nat
    = Some (if decide (0%nat = buffer (fresh 0%nat))
            then replicate (length abc_block) x00 else abc_block) /\
    process w1 0%nat 0%nat 0 = Normal w2 tt /\
    heap w2 !! 0%nat = Some o2 /\
    map4 JS.to_uint32 (words o2)
    = Spec.compress (0, 0, 0, 0)
        (take 64
           (drop (Z.to_nat 0)
              (if decide (0%nat = buffer (fresh 0%nat))
               then replicate (length abc_block) x00 else abc_block))).
Proof.
  apply (process_after_destroy
           (with_mem (one_object []) {[0%nat := abc_block]}) 0%nat
           (fresh 0%nat) abc_block 0%nat abc_block 0).
  - reflexivity.
  - reflexivity.
  - reflexivity.
  - reflexivity.
  - lia.
  - vm_compute. discriminate.
Defined.

(** ** What a failed [process] leaves in the scratch array *)

Lemma load_W_fails_at m view bs :
  m !! view = Some bs ->
  forall k n i off W,
    0 <= off -> (k < n)%nat -> (i + k <= length W)%nat ->
    off + 4 * Z.of_nat k <= Z.of_nat (length bs) < off + 4 * Z.of_nat k + 4 ->
    load_W n i off m view W
    = (take i W ++ words_at bs off k ++ drop (i + k) W, Some JS.RangeError).
Proof.
  intros Hm. induction k as [| k IH]; intros n i off W H0 Hn Hi Hlen;
    (destruct n as [| n]; [lia |]); cbn [load_W words_at].
  - unfold getUint32. rewrite Hm.
    destruct (Z.ltb_spec off 0); [lia |].
    destruct (Z.ltb_spec (Z.of_nat (length bs)) (off + 4)); [| lia].
    rewrite Nat.add_0_r, app_nil_l, take_drop. reflexivity.
  - rewrite (getUint32_in_range m view bs off Hm) by lia.
    rewrite to_uint32_small by apply word_range.
    rewrite (IH n (S i) (off + 4)) by (rewrite ?length_insert; lia).
    rewrite (take_S_r _ i (le_value (take 4 (drop (Z.to_nat off) bs))))
      by (apply list_lookup_insert_eq; lia).
    rewrite take_insert_ge, drop_insert_lt by lia.
    rewrite <- app_assoc. cbn [app].
    now replace (S i + k)%nat with (i + S k)%nat by lia.
Qed.

Lemma words_at_lookup bs (tail : list Z) k :
  forall off j,
    (j < k)%nat ->
    (words_at bs off k ++ tail) !! j
    = Some (le_value (take 4 (drop (Z.to_nat (off + 4 * Z.of_nat j)) bs))).
Proof.
  induction k as [| k IH]; intros off j Hj; [lia |].
  cbn [words_at app]. destruct j as [| j].
  - cbn [lookup list_lookup]. do 4 f_equal. lia.
  - change ((le_value (take 4 (drop (Z.to_nat off) bs))
               :: words_at bs (off + 4) k ++ tail) !! S j)
      with ((words_at bs (off + 4) k ++ tail) !! j).
    rewrite IH by lia. do 4 f_equal. lia.
Qed.

(** X7: when the view ends inside the block, after [k] whole words,
    [process] throws and does not clean up after itself: the scratch array
    keeps the [k] words already read in its first slots and its old
    contents in the others. *)
Theorem process_throw_leaves_words w this o view bs offset k :
  wf_world w ->
  heap w !! this = Some o ->
  mem w !! view = Some bs ->
  0 <= offset -> (k < 16)%nat ->
  offset + 4 * Z.of_nat k <= Z.of_nat (length bs)
  < offset + 4 * Z.of_nat k + 4 ->
  exists w',
    process w this view offset = Throw w' JS.RangeError /\
    MD5_W w' = words_at bs offset k ++ drop k (MD5_W w) /\
    (forall j, (j < k)%nat ->
       MD5_W w' !! j
       = Some (le_value
                 (take 4 (drop (Z.to_nat (offset + 4 * Z.of_nat j)) bs)))) /\
    heap w' = heap w /\ mem w' = mem w.
Proof.
  intros Hwf Ho Hbs H0 Hk Hlen. unfold wf_world in Hwf. unfold process.
  rewrite Ho.
  rewrite (load_W_fails_at (mem w) view bs Hbs k 16 0 offset (MD5_W w))
    by lia.
  rewrite take_0, app_nil_l. eexists. split; [reflexivity |].
  cbn [with_W MD5_W heap mem]. split; [reflexivity |].
  split; [| split; reflexivity].
  intros j Hj. now apply words_at_lookup.
Qed.

Lemma process_throw_leaves_words_witness :
  exists w',
    process (one_object (take 10 abc_block)) 0%nat 1%nat 0
    = Throw w' JS.RangeError /\
    MD5_W w' = words_at (take 10 abc_block) 0 2
               ++ drop 2 (MD5_W (one_object (take 10 abc_block))) /\
    (forall j, (j < 2)%nat ->
       MD5_W w' !! j
       = Some (le_value
                 (take 4 (drop (Z.to_nat (0 + 4 * Z.of_nat j))
                            (take 10 abc_block))))) /\
    heap w' = heap (one_object (take 10 abc_block)) /\
    mem w' = mem (one_object (take 10 abc_block)).
Proof.
  apply (process_throw_leaves_words (one_object (take 10 abc_block)) 0%nat
           (fresh 0%nat) 1%nat (take 10 abc_block) 0 2).
  - reflexivity.
  - reflexivity.
  - reflexivity.
  - lia.
  - lia.
  - vm_compute. split; [discriminate | reflexivity].
Defined.

(** ** The loop computes with exact integers *)

(** X8: the loop adds without truncating ([B = B + rotl(...)], the sum
    [F + A + K[i] + W[g]]), and stays exact all the same: from signed 32-bit
    state words and unsigned 32-bit schedule words, after any number of
    rounds up to 64 every state word is below 2^38 in magnitude, and the
    sum of the next round below 2^39, far from 2^53. *)
Theorem loop_numbers_are_small W a b c d n :
  Forall int32 [a; b; c; d] ->
  Forall (fun x => 0 <= x < 2 ^ 32) W ->
  (n < 64)%nat ->
  let '(an, bn, cn, dn) := rounds n W 0 (a, b, c, d) in
  Forall (fun x => Z.abs x < 2 ^ 38) [an; bn; cn; dn] /\
  exists F,
    int32 F /\
    round W (Z.of_nat n) (an, bn, cn, dn)
    = (dn,
       bn + rotl (F + an + JS.idx MD5_K (Z.of_nat n)
                  + JS.idx W (Spec.g (Z.of_nat n))) (Spec.shift (Z.of_nat n)),
       bn, cn) /\
    Z.abs (F + an + JS.idx MD5_K (Z.of_nat n) + JS.idx W (Spec.g (Z.of_nat n)))
    < 2 ^ 39 /\
    Z.abs (bn + rotl (F + an + JS.idx MD5_K (Z.of_nat n)
                      + JS.idx W (Spec.g (Z.of_nat n)))
                  (Spec.shift (Z.of_nat n))) < 2 ^ 38.
Proof.
  intros Hst HW Hn.
  assert (Hst' : Forall (fun x => Z.abs x <= 2 ^ 31) [a; b; c; d]).
  { eapply Forall_impl; [exact Hst |]. unfold int32. intros x Hx. lia. }
  pose proof (rounds_safe_integer W n 0 (a, b, c, d) (2 ^ 31)
                ltac:(lia) ltac:(lia) HW Hst') as Hr.
  destruct (rounds n W 0 (a, b, c, d)) as [[[an bn] cn] dn].
  assert (Hb : 2 ^ 31 + Z.of_nat n * 2 ^ 31 <= 64 * 2 ^ 31) by lia.
  split.
  { eapply Forall_impl; [exact Hr |]. intros x Hx. cbn beta in Hx. lia. }
  pose proof (round_safe W (Z.of_nat n) an bn cn dn
                (2 ^ 31 + Z.of_nat n * 2 ^ 31) ltac:(lia) HW Hr) as Hs.
  rewrite round_unfold in Hs |- * by lia.
  destruct Hs as (Hnew & F & HF & Heq & Hsum).
  rewrite !Forall_cons in Hnew. destruct Hnew as (_ & Hb' & _).
  set (F0 := if Z.of_nat n <? 16 then _ else _) in *.
  exists F0.
  assert (HF0 : int32 F0).
  { subst F0. unfold int32.
    repeat match goal with |- context [?x <? ?y] => destruct (x <? y) end;
      first [apply Chi_range | apply xor_range]. }
  split; [exact HF0 |]. split; [reflexivity |].
  pose proof (rotl_range (F0 + an + JS.idx MD5_K (Z.of_nat n)
                          + JS.idx W (Spec.g (Z.of_nat n)))
                (Spec.shift (Z.of_nat n))) as Hrot.
  rewrite !Forall_cons in Hr. destruct Hr as (Han & Hbn & _).
  assert (HK : 0 <= JS.idx MD5_K (Z.of_nat n) < 2 ^ 32).
  { unfold JS.idx.
    assert (HKs : Forall (fun k => 0 <= k < 2 ^ 32) MD5_K)
      by (repeat constructor; lia).
    rewrite Forall_forall in HKs. apply HKs, list_elem_of_In, nth_In.
    apply K_index_in_range. lia. }
  assert (HWg : 0 <= JS.idx W (Spec.g (Z.of_nat n)) < 2 ^ 32).
  { unfold JS.idx. rewrite Forall_forall in HW.
    destruct (Nat.lt_ge_cases (Z.to_nat (Spec.g (Z.of_nat n))) (length W))
      as [Hlt | Hge].
    - now apply HW, list_elem_of_In, nth_In.
    - rewrite nth_overflow by lia. lia. }
  unfold int32 in HF0. split; lia.
Qed.

Lemma loop_numbers_are_small_witness :
  let '(an, bn, cn, dn) :=
    rounds 63 (Spec.schedule abc_block) 0
      (A (fresh 0%nat), B (fresh 0%nat), C (fresh 0%nat), D (fresh 0%nat)) in
  Forall (fun x => Z.abs x < 2 ^ 38) [an; bn; cn; dn] /\
  exists F,
    int32 F /\
    round (Spec.schedule abc_block) (Z.of_nat 63) (an, bn, cn, dn)
    = (dn,
       bn + rotl (F + an + JS.idx MD5_K (Z.of_nat 63)
                  + JS.idx (Spec.schedule abc_block) (Spec.g (Z.of_nat 63)))
              (Spec.shift (Z.of_nat 63)),
       bn, cn) /\
    Z.abs (F + an + JS.idx MD5_K (Z.of_nat 63)
           + JS.idx (Spec.schedule abc_block) (Spec.g (Z.of_nat 63)))
    < 2 ^ 39 /\
    Z.abs (bn + rotl (F + an + JS.idx MD5_K (Z.of_nat 63)
                      + JS.idx (Spec.schedule abc_block)
                          (Spec.g (Z.of_nat 63)))
                  (Spec.shift (Z.of_nat 63))) < 2 ^ 38.
Proof.
  apply (loop_numbers_are_small (Spec.schedule abc_block)
           (A (fresh 0%nat)) (B (fresh 0%nat)) (C (fresh 0%nat))
           (D (fresh 0%nat)) 63).
  - repeat constructor; vm_compute; discriminate.
  - apply Forall_forall. intros x Hx.
    assert (Hb : forallb (fun x => (0 <=? x) && (x <? 2 ^ 32))
                   (Spec.schedule abc_block) = true)
      by (vm_compute; reflexivity).
    rewrite forallb_forall in Hb. specialize (Hb x).
    rewrite <- list_elem_of_In in Hb. specialize (Hb Hx).
    apply andb_true_iff in Hb as [H1 H2]. lia.
  - lia.
Defined.

(** ** The rounds lose nothing *)

Lemma rotl32_range x n :
  0 <= x < 2 ^ 32 -> 0 < n < 32 -> 0 <= Spec.rotl32 x n < 2 ^ 32.
Proof.
  intros Hx Hn. unfold Spec.rotl32.
  assert (Hq : 0 <= x / 2 ^ (32 - n) < 2 ^ n).
  { split; [apply Z.div_pos; lia |].
    apply Z.div_lt_upper_bound; [lia |].
    rewrite <- Z.pow_add_r by lia. now replace (32 - n + n) with 32 by lia. }
  replace (2 ^ 32) with (2 ^ (32 - n) * 2 ^ n)
    by (rewrite <- Z.pow_add_r by lia; f_equal; lia).
  rewrite Z.mul_mod_distr_r by lia.
  pose proof (Z.mod_pos_bound x (2 ^ (32 - n)) ltac:(lia)) as Hm.
  assert (0 < 2 ^ n) by lia. nia.
Qed.

Lemma rotl32_injective x y n :
  0 <= x < 2 ^ 32 -> 0 <= y < 2 ^ 32 -> 0 < n < 32 ->
  Spec.rotl32 x n = Spec.rotl32 y n -> x = y.
Proof.
  intros Hx Hy Hn Heq. apply Z.bits_inj'. intros j Hj.
  destruct (Z.ltb_spec j 32) as [Hlt | Hge].
  - assert (Hi : 0 <= (j + n) mod 32 < 32) by (apply Z.mod_pos_bound; lia).
    assert (Hback : ((j + n) mod 32 - n) mod 32 = j).
    { rewrite Zminus_mod_idemp_l. replace (j + n - n) with j by lia.
      apply Z.mod_small. lia. }
    rewrite <- Hback.
    rewrite <- (rotl32_bits x n ((j + n) mod 32)) by assumption.
    rewrite <- (rotl32_bits y n ((j + n) mod 32)) by assumption.
    now rewrite Heq.
  - rewrite <- (to_uint32_small x), <- (to_uint32_small y) by assumption.
    rewrite !testbit_to_uint32.
    destruct (Z.ltb_spec j 32); [lia | reflexivity].
Qed.

Lemma add_mod_cancel_l b x y :
  0 <= x < 2 ^ 32 -> 0 <= y < 2 ^ 32 ->
  (b + x) mod 2 ^ 32 = (b + y) mod 2 ^ 32 -> x = y.
Proof.
  intros Hx Hy Heq.
  assert (Hd : (x - y) mod 2 ^ 32 = 0).
  { replace (x - y) with ((b + x) - (b + y)) by lia.
    rewrite Zminus_mod, Heq, Z.sub_diag. reflexivity. }
  apply Z.mod_divide in Hd; [| lia]. destruct Hd as [q Hq]. nia.
Qed.

Lemma step_core_injective F K Wg s a a' b :
  0 <= a < 2 ^ 32 -> 0 <= a' < 2 ^ 32 -> 0 < s < 32 ->
  (b + Spec.rotl32 ((F + a + K + Wg) mod 2 ^ 32) s) mod 2 ^ 32
  = (b + Spec.rotl32 ((F + a' + K + Wg) mod 2 ^ 32) s) mod 2 ^ 32 ->
  a = a'.
Proof.
  intros Ha Ha' Hs Hb.
  apply add_mod_cancel_l in Hb;
    [| apply rotl32_range; [apply Z.mod_pos_bound; lia | exact Hs]
     | apply rotl32_range; [apply Z.mod_pos_bound; lia | exact Hs]].
  apply rotl32_injective in Hb;
    [| apply Z.mod_pos_bound; lia | apply Z.mod_pos_bound; lia | exact Hs].
  replace (F + a + K + Wg) with ((F + K + Wg) + a) in Hb by lia.
  replace (F + a' + K + Wg) with ((F + K + Wg) + a') in Hb by lia.
  now apply add_mod_cancel_l in Hb.
Qed.

Lemma step_injective W i st st' :
  0 <= i < 64 ->
  (let '(a, b, c, d) := st in 0 <= a < 2 ^ 32) ->
  (let '(a, b, c, d) := st' in 0 <= a < 2 ^ 32) ->
  Spec.step W st i = Spec.step W st' i -> st = st'.
Proof.
  intros Hi Ha Ha'. destruct st as [[[a b] c] d], st' as [[[a' b'] c'] d'].
  unfold Spec.step.
  generalize (nth (Z.to_nat i) MD5_K 0) (nth (Z.to_nat (Spec.g i)) W 0).
  intros K Wg Heq.
  assert (Hd : d = d') by congruence.
  assert (Hb : b = b') by congruence.
  assert (Hc : c = c') by congruence.
  subst d' b' c'.
  assert (Hx : (b + Spec.rotl32 ((Spec.F i b c d + a + K + Wg) mod 2 ^ 32)
                      (Spec.shift i)) mod 2 ^ 32
               = (b + Spec.rotl32 ((Spec.F i b c d + a' + K + Wg) mod 2 ^ 32)
                        (Spec.shift i)) mod 2 ^ 32) by congruence.
  apply step_core_injective in Hx;
    [now subst a' | exact Ha | exact Ha' | now apply shift_range].
Qed.

Lemma round_injective W i st st' :
  0 <= i < 64 ->
  map4 JS.to_uint32 (round W i st) = map4 JS.to_uint32 (round W i st') ->
  map4 JS.to_uint32 st = map4 JS.to_uint32 st'.
Proof.
  intros Hi Heq. rewrite !round_sim in Heq by exact Hi.
  apply (step_injective W i) in Heq; [exact Heq | exact Hi | |].
  - destruct st as [[[a b] c] d]. cbn [map4]. apply to_uint32_range.
  - destruct st' as [[[a b] c] d]. cbn [map4]. apply to_uint32_range.
Qed.

(** X9: for a fixed message schedule the rounds are one-to-one on the
    state read modulo 2^32: two states that any run of rounds brings to the
    same words were the same words to begin with. *)
Theorem rounds_injective W n :
  forall i st st',
    0 <= i -> i + Z.of_nat n <= 64 ->
    map4 JS.to_uint32 (rounds n W i st)
    = map4 JS.to_uint32 (rounds n W i st') ->
    map4 JS.to_uint32 st = map4 JS.to_uint32 st'.
Proof.
  induction n as [| n IH]; intros i st st' H0 Hn Heq; [exact Heq |].
  cbn [rounds] in Heq. apply IH in Heq; [| lia | lia].
  apply (round_injective W i); [lia | exact Heq].
Qed.

Lemma rounds_injective_witness :
  map4 JS.to_uint32 (1, 2, 3, 4) = map4 JS.to_uint32 (2 ^ 32 + 1, 2, 3, 4).
Proof.
  apply (rounds_injective (Spec.schedule abc_block) 64 0 (1, 2, 3, 4)
           (2 ^ 32 + 1, 2, 3, 4)).
  - lia.
  - lia.
  - vm_compute. reflexivity.
Defined.

(** ** Which schedule word a round reads *)




(** ** [roundClean] is hygiene only *)

Lemma process_frame_mem w this view offset :
  mem (world_of (process w this view offset)) = mem w.
Proof.
  unfold process. destruct (heap w !! this) as [o |]; [| reflexivity].
  destruct (load_W 16 0 offset (mem w) view (MD5_W w)) as [W [e |]];
    [reflexivity |].
  destruct (rounds 64 W 0 (A o, B o, C o, D o)) as [[[a b] c] d].
  unfold set. cbn [with_W heap]. now destruct (heap w !! this).
Qed.

Lemma same_but_scratch_process w1 w2 this view offset :
  same_but_scratch w1 w2 ->
  same_but_scratch (world_of (process w1 this view offset))
    (world_of (process w2 this view offset)).
Proof.
  intros (Hh & Hm & Hwf1 & Hwf2).
  assert (Hl1 := process_keeps_scratch_length w1 this view offset).
  assert (Hl2 := process_keeps_scratch_length w2 this view offset).
  unfold same_but_scratch, wf_world in *.
  rewrite Hl1, Hl2. split; [| split; [| split; assumption]].
  - unfold process. rewrite Hh, Hm.
    destruct (heap w2 !! this) as [o |] eqn:Ho; [| exact Hh].
    destruct (load_W_indep (mem w2) view 16 0 offset (MD5_W w1) (MD5_W w2))
      as [Hsnd Hfst]; [congruence | reflexivity | lia |].
    destruct (load_W 16 0 offset (mem w2) view (MD5_W w1)) as [V1 [e1 |]];
      destruct (load_W 16 0 offset (mem w2) view (MD5_W w2)) as [V2 [e2 |]];
      cbn [fst snd] in *; try discriminate.
    + exact Hh.
    + rewrite <- (Hfst eq_refl).
      destruct (rounds 64 V1 0 (A o, B o, C o, D o)) as [[[a b] c] d].
      unfold set. cbn [with_W heap]. rewrite Hh, Ho.
      cbn [world_of with_heap heap].
      reflexivity.
  - pose proof (process_frame_mem w1 this view offset) as H1.
    pose proof (process_frame_mem w2 this view offset) as H2.
    congruence.
Qed.

Lemma same_but_scratch_call w1 w2 c :
  same_but_scratch w1 w2 ->
  same_but_scratch (run_call w1 c) (run_call w2 c).
Proof.
  intros Hs. destruct c as [t | t a b c d | t v off | t | t];
    cbn [run_call]; [| | now apply same_but_scratch_process | |];
    destruct Hs as (Hh & Hm & Hwf1 & Hwf2);
    unfold same_but_scratch, wf_world in *.
  - unfold get. rewrite Hh. now destruct (heap w2 !! t).
  - unfold set. rewrite Hh.
    destruct (heap w2 !! t); cbn [world_of with_heap heap mem MD5_W];
      rewrite ?Hh; auto.
  - unfold roundClean. rewrite Hh.
    destruct (heap w2 !! t); cbn [world_of with_W MD5_W heap mem];
      rewrite ?length_replicate; auto.
  - unfold destroy, set. rewrite Hh.
    destruct (heap w2 !! t) as [o |]; cbn [world_of with_heap heap mem]; auto.
    rewrite lookup_insert_eq. cbn [set_fields buffer]. rewrite Hm.
    destruct (mem w2 !! buffer o);
      cbn [world_of with_mem with_heap heap mem MD5_W]; rewrite ?Hh; auto.
Qed.

Lemma same_but_scratch_roundClean w1 w2 t :
  same_but_scratch w1 w2 ->
  same_but_scratch (run_call w1 (CallRoundClean t)) w2.
Proof.
  intros (Hh & Hm & Hwf1 & Hwf2). unfold same_but_scratch, wf_world in *.
  cbn [run_call]. unfold roundClean.
  destruct (heap w1 !! t); cbn [world_of with_W MD5_W heap mem];
    rewrite ?length_replicate; auto.
Qed.

Lemma run_without_roundClean cs :
  forall w1 w2,
    same_but_scratch w1 w2 ->
    same_but_scratch (run w1 cs)
      (run w2 (filter (fun c => is_roundClean c = false) cs)).
Proof.
  induction cs as [| c cs IH]; intros w1 w2 Hs; [exact Hs |].
  rewrite run_cons. destruct (is_roundClean c) eqn:Hc.
  - rewrite filter_cons_False by (rewrite Hc; discriminate).
    destruct c; try discriminate.
    apply IH. now apply same_but_scratch_roundClean.
  - rewrite filter_cons_True by exact Hc. rewrite run_cons.
    apply IH. now apply same_but_scratch_call.
Qed.

(** X11: [roundClean] is hygiene only: striking every [roundClean] call
    from any sequence of method calls leaves every object and every byte
    as the full sequence does; nothing a method does depends on the scratch
    array having been cleaned. *)
Theorem roundClean_changes_no_result w cs :
  wf_world w ->
  heap (run w cs) = heap (run w (filter (fun c => is_roundClean c = false) cs))
  /\ mem (run w cs)
     = mem (run w (filter (fun c => is_roundClean c = false) cs)).
Proof.
  intros Hwf.
  destruct (run_without_roundClean cs w w) as (Hh & Hm & _); [| auto].
  repeat split; assumption.
Qed.

Lemma roundClean_changes_no_result_witness :
  heap (run (one_object (abc_block ++ abc_block))
          [CallProcess 0%nat 1%nat 0; CallRoundClean 0%nat;
           CallProcess 0%nat 1%nat 64; CallRoundClean 0%nat])
  = heap (run (one_object (abc_block ++ abc_block))
            (filter (fun c => is_roundClean c = false)
               [CallProcess 0%nat 1%nat 0; CallRoundClean 0%nat;
                CallProcess 0%nat 1%nat 64; CallRoundClean 0%nat]))
  /\ mem (run (one_object (abc_block ++ abc_block))
            [CallProcess 0%nat 1%nat 0; CallRoundClean 0%nat;
             CallProcess 0%nat 1%nat 64; CallRoundClean 0%nat])
     = mem (run (one_object (abc_block ++ abc_block))
              (filter (fun c => is_roundClean c = false)
                 [CallProcess 0%nat 1%nat 0; CallRoundClean 0%nat;
                  CallProcess 0%nat 1%nat 64; CallRoundClean 0%nat])).
Proof.
  apply (roundClean_changes_no_result (one_object (abc_block ++ abc_block))).
  reflexivity.
Defined.
